(** * Inventory application core: a shallow embedding of App.tsx and types.ts

    The development follows the component function [App]: the item
    collection held in React state, the CRUD handlers, the derived
    filtered/sorted/paginated view, the dashboard reductions and the effect
    that saves the collection to [localStorage].

    Modelling conventions.
    - A JavaScript [number] that carries a measured quantity ([quantity],
      [price], the result of a comparator) is an IEEE-754 binary64 value:
      Rocq's primitive [float], whose [+], [-], [*] round to nearest-even
      exactly as JavaScript's do.
    - Integer counters (millisecond clock readings, page numbers, array
      indices) are [Z]; their arithmetic is exact in binary64 below 2^53.
    - A JavaScript string is a [string]; what the host supplies
      ([toLowerCase], [localeCompare], [toISOString], [JSON]) is the
      interface [Host].
    - [localStorage] is a finite map from keys to strings. *)

From Stdlib Require Import ZArith List String Ascii Bool Lia QArith Sorted.
From Stdlib Require Import DecimalString DecimalZ OrderedTypeEx.
From Stdlib Require Import Floats.PrimFloat Floats.SpecFloat Floats.FloatOps.
From stdpp Require Import gmap strings.
Import ListNotations.

Set Warnings "-inexact-float".

Abbreviation number := float (only parsing).

(** ** types.ts *)

Record InventoryItem : Type := mkItem {
  id : string;
  name : string;
  quantity : number;
  price : number;
  category : string;
  sku : string;
  lastUpdated : string
}.

(** [Omit<InventoryItem, 'id' | 'lastUpdated'>] *)
Record NewInventoryItem : Type := mkNewItem {
  new_name : string;
  new_quantity : number;
  new_price : number;
  new_category : string;
  new_sku : string
}.

(** [keyof InventoryItem] *)
Inductive ItemKey : Type :=
  | Kid | Kname | Kquantity | Kprice | Kcategory | Ksku | KlastUpdated.

Inductive Direction : Type := ascending | descending.

Record SortConfig : Type := mkSortConfig {
  key : option ItemKey;
  direction : Direction
}.

(** [10 | 25 | 50] *)
Inductive ItemsPerPage : Type := PerPage10 | PerPage25 | PerPage50.

Definition perPage (n : ItemsPerPage) : Z :=
  match n with PerPage10 => 10 | PerPage25 => 25 | PerPage50 => 50 end%Z.

(** ** JavaScript values and the host *)

(** What [item[key]] can be at run time, as [typeof] sees it. *)
Inductive value : Type :=
  | VNum (n : number)
  | VStr (s : string).

Definition getField (k : ItemKey) (item : InventoryItem) : value :=
  match k with
  | Kid => VStr (id item)
  | Kname => VStr (name item)
  | Kquantity => VNum (quantity item)
  | Kprice => VNum (price item)
  | Kcategory => VStr (category item)
  | Ksku => VStr (sku item)
  | KlastUpdated => VStr (lastUpdated item)
  end.

Class Host : Type := {
  toLowerCase : string -> string;
  localeCompare : string -> string -> number;
  toISOString : Z -> string;
  JSON_stringify : list InventoryItem -> string;
  (** [None] when [JSON.parse] throws. *)
  JSON_parse : string -> option (list InventoryItem)
}.

(** A string is truthy exactly when it is not empty. *)
Definition truthy (s : string) : bool := negb (String.eqb s EmptyString).

(** [s.includes(t)]: [t] occurs in [s] at some offset. *)
Fixpoint includes (s t : string) : bool :=
  String.prefix t s ||
  match s with
  | EmptyString => false
  | String _ s' => includes s' t
  end.

(** [Number.prototype.toString] on an integer: its decimal digits. *)
Definition Number_toString (n : Z) : string :=
  NilZero.string_of_int (Z.to_int n).

(** ** Array.prototype

    [sort] takes the comparator's result through SortCompare: a NaN counts
    as [+0]. The language requires the sort to be stable and, for a
    consistent comparator, to return the elements in the comparator's
    order, which fixes the result; which comparisons are made, and the
    order produced for a comparator that is not consistent, are left to
    the implementation. The sort is computed here by straight insertion
    from the right end of the array, one implementation the language
    admits. *)

Definition SortCompare (v : number) : comparison :=
  if (v <? 0)%float then Lt
  else if (0 <? v)%float then Gt
  else Eq.

Fixpoint insert {A : Type} (comparefn : A -> A -> number) (x : A)
    (sorted : list A) : list A :=
  match sorted with
  | [] => [x]
  | y :: rest =>
      match SortCompare (comparefn x y) with
      | Gt => y :: insert comparefn x rest
      | _ => x :: y :: rest
      end
  end.

Definition Array_sort {A : Type} (comparefn : A -> A -> number)
    (l : list A) : list A :=
  fold_right (insert comparefn) [] l.

(** [l.slice(start, end)] with integer arguments: a negative argument
    counts from the end of the array, both are clamped to [0, length]. *)
Definition Array_slice {A : Type} (l : list A) (start final : Z) : list A :=
  let len := Z.of_nat (length l) in
  let k := if (start <? 0)%Z then Z.max (len + start) 0 else Z.min start len in
  let fin := if (final <? 0)%Z then Z.max (len + final) 0 else Z.min final len in
  firstn (Z.to_nat (fin - k)) (skipn (Z.to_nat k) l).

(** [l.reduce(f, init)] *)
Definition Array_reduce {A B : Type} (f : B -> A -> B) (init : B)
    (l : list A) : B :=
  fold_left f l init.

Section App.
Context `{Host}.

(** ** Filtering, sorting, pagination *)

Definition matchesSearch (searchTerm : string) (item : InventoryItem) : bool :=
  includes (toLowerCase (name item)) (toLowerCase searchTerm) ||
  includes (toLowerCase (sku item)) (toLowerCase searchTerm) ||
  includes (toLowerCase (category item)) (toLowerCase searchTerm).

(** The body of the comparator once [valA] and [valB] have been read. *)
Definition compareValues (dir : Direction) (valA valB : value) : number :=
  let comparison :=
    match valA, valB with
    | VNum a, VNum b => (a - b)%float
    | VStr a, VStr b => localeCompare a b
    | _, _ => 0%float
    end in
  match dir with
  | ascending => comparison
  | descending => (- comparison)%float
  end.

Definition comparator (k : ItemKey) (dir : Direction)
    (a b : InventoryItem) : number :=
  compareValues dir (getField k a) (getField k b).

Definition filteredAndSortedItems (inventoryItems : list InventoryItem)
    (searchTerm selectedCategory : string) (sortConfig : SortConfig)
    : list InventoryItem :=
  let items := inventoryItems in
  let items :=
    if truthy searchTerm then List.filter (matchesSearch searchTerm) items
    else items in
  let items :=
    if truthy selectedCategory
    then List.filter (fun item => String.eqb (category item) selectedCategory) items
    else items in
  match key sortConfig with
  | Some k => Array_sort (comparator k (direction sortConfig)) items
  | None => items
  end.

Definition paginatedItems (filteredAndSorted : list InventoryItem)
    (currentPage : Z) (itemsPerPage : ItemsPerPage) : list InventoryItem :=
  let startIndex := ((currentPage - 1) * perPage itemsPerPage)%Z in
  Array_slice filteredAndSorted startIndex (startIndex + perPage itemsPerPage)%Z.

(** ** Dashboard stats *)

Definition LOW_STOCK_THRESHOLD : number := 10%float.

Definition totalItemsInStock (inventoryItems : list InventoryItem) : number :=
  Array_reduce (fun sum item => (sum + quantity item)%float) 0%float
    inventoryItems.

Definition uniqueProductSKUs (inventoryItems : list InventoryItem) : nat :=
  length inventoryItems.

Definition totalInventoryValue (inventoryItems : list InventoryItem) : number :=
  Array_reduce (fun sum item => (sum + quantity item * price item)%float)
    0%float inventoryItems.

Definition lowStockItemsCount (inventoryItems : list InventoryItem) : nat :=
  length
    (List.filter (fun item => (quantity item <=? LOW_STOCK_THRESHOLD)%float)
       inventoryItems).

(** ** Sample initial data

    The [Date.now()] readings of the module's initialisation are taken as
    one instant, [t0]. *)

Definition day : Z := 86400000.

Definition initialItems (t0 : Z) : list InventoryItem :=
  [ mkItem "1" ("Laptop Pro 15" ++ String "034"%char EmptyString) 5 1200.00
      "Electronics" "LP15-001" (toISOString (t0 - day * 2));
    mkItem "2" "Wireless Mouse" 150 25.99 "Accessories" "WM-002"
      (toISOString (t0 - day));
    mkItem "3" "Mechanical Keyboard" 8 79.50 "Accessories" "MK-003"
      (toISOString t0);
    mkItem "4" "Office Chair Ergonomic" 30 250.00 "Furniture" "OC-004"
      (toISOString (t0 - day * 5));
    mkItem "5" ("27" ++ String "034"%char " 4K Monitor") 15 350.00
      "Electronics" "MON27-4K" (toISOString (t0 - day * 1));
    mkItem "6" "USB-C Hub" 60 35.00 "Accessories" "USBC-HUB-01"
      (toISOString (t0 - day * 3));
    mkItem "7" "Standing Desk" 12 450.00 "Furniture" "STD-DSK-001"
      (toISOString (t0 - day * 10)) ]%float%Z%string.

(** ** Item CRUD on the collection

    The updater functions that [handleItemFormSubmit] (edit branch, add
    branch) and [confirmDeleteItem] hand to [setInventoryItems]. [dateNow]
    is the reading of [Date.now()], [newDate] that of [new Date()], taken
    in this order by the add branch. *)

(** [{ ...itemData, lastUpdated: ts }] *)
Definition withLastUpdated (itemData : InventoryItem) (ts : string)
    : InventoryItem :=
  {| id := id itemData; name := name itemData;
     quantity := quantity itemData; price := price itemData;
     category := category itemData; sku := sku itemData;
     lastUpdated := ts |}.

Definition updateItem (itemData : InventoryItem) (newDate : Z)
    (prevItems : list InventoryItem) : list InventoryItem :=
  List.map
    (fun item =>
       if String.eqb (id item) (id itemData)
       then withLastUpdated itemData (toISOString newDate)
       else item)
    prevItems.

Definition makeNewItem (itemData : NewInventoryItem) (dateNow newDate : Z)
    : InventoryItem :=
  {| name := new_name itemData; quantity := new_quantity itemData;
     price := new_price itemData; category := new_category itemData;
     sku := new_sku itemData;
     id := Number_toString dateNow;
     lastUpdated := toISOString newDate |}.

Definition createItem (itemData : NewInventoryItem) (dateNow newDate : Z)
    (prevItems : list InventoryItem) : list InventoryItem :=
  makeNewItem itemData dateNow newDate :: prevItems.

Definition deleteItem (itemId : string) (prevItems : list InventoryItem)
    : list InventoryItem :=
  List.filter (fun item => negb (String.eqb (id item) itemId)) prevItems.

(** ** The component's state

    One field per [useState] cell that the handlers below read or write
    (the theme flag takes no part in them). [itemsRef] is the identity of
    the array held in [inventoryItems]: React compares effect dependencies
    with [Object.is], and every [setInventoryItems] in the source stores an
    array that was just built. *)

Record App : Type := mkApp {
  inventoryItems : list InventoryItem;
  itemsRef : nat;
  isLoading : bool;
  searchTerm : string;
  isModalOpen : bool;
  editingItem : option InventoryItem;
  sortConfig : SortConfig;
  currentPage : Z;
  itemsPerPage : ItemsPerPage;
  selectedCategory : string;
  isDeleteConfirmModalOpen : bool;
  itemToDelete : option (string * string)
}.

Definition setInventoryItems (f : list InventoryItem -> list InventoryItem)
    (st : App) : App :=
  mkApp (f (inventoryItems st)) (S (itemsRef st)) (isLoading st)
    (searchTerm st) (isModalOpen st) (editingItem st) (sortConfig st)
    (currentPage st) (itemsPerPage st) (selectedCategory st)
    (isDeleteConfirmModalOpen st) (itemToDelete st).

Definition setIsLoading (b : bool) (st : App) : App :=
  mkApp (inventoryItems st) (itemsRef st) b (searchTerm st) (isModalOpen st)
    (editingItem st) (sortConfig st) (currentPage st) (itemsPerPage st)
    (selectedCategory st) (isDeleteConfirmModalOpen st) (itemToDelete st).

Definition setSearchTerm (s : string) (st : App) : App :=
  mkApp (inventoryItems st) (itemsRef st) (isLoading st) s (isModalOpen st)
    (editingItem st) (sortConfig st) (currentPage st) (itemsPerPage st)
    (selectedCategory st) (isDeleteConfirmModalOpen st) (itemToDelete st).

Definition setIsModalOpen (b : bool) (st : App) : App :=
  mkApp (inventoryItems st) (itemsRef st) (isLoading st) (searchTerm st) b
    (editingItem st) (sortConfig st) (currentPage st) (itemsPerPage st)
    (selectedCategory st) (isDeleteConfirmModalOpen st) (itemToDelete st).

Definition setEditingItem (e : option InventoryItem) (st : App) : App :=
  mkApp (inventoryItems st) (itemsRef st) (isLoading st) (searchTerm st)
    (isModalOpen st) e (sortConfig st) (currentPage st) (itemsPerPage st)
    (selectedCategory st) (isDeleteConfirmModalOpen st) (itemToDelete st).

Definition setSortConfig (c : SortConfig) (st : App) : App :=
  mkApp (inventoryItems st) (itemsRef st) (isLoading st) (searchTerm st)
    (isModalOpen st) (editingItem st) c (currentPage st) (itemsPerPage st)
    (selectedCategory st) (isDeleteConfirmModalOpen st) (itemToDelete st).

Definition setCurrentPage (p : Z) (st : App) : App :=
  mkApp (inventoryItems st) (itemsRef st) (isLoading st) (searchTerm st)
    (isModalOpen st) (editingItem st) (sortConfig st) p (itemsPerPage st)
    (selectedCategory st) (isDeleteConfirmModalOpen st) (itemToDelete st).

Definition setItemsPerPage (n : ItemsPerPage) (st : App) : App :=
  mkApp (inventoryItems st) (itemsRef st) (isLoading st) (searchTerm st)
    (isModalOpen st) (editingItem st) (sortConfig st) (currentPage st) n
    (selectedCategory st) (isDeleteConfirmModalOpen st) (itemToDelete st).

Definition setSelectedCategory (c : string) (st : App) : App :=
  mkApp (inventoryItems st) (itemsRef st) (isLoading st) (searchTerm st)
    (isModalOpen st) (editingItem st) (sortConfig st) (currentPage st)
    (itemsPerPage st) c (isDeleteConfirmModalOpen st) (itemToDelete st).

Definition setIsDeleteConfirmModalOpen (b : bool) (st : App) : App :=
  mkApp (inventoryItems st) (itemsRef st) (isLoading st) (searchTerm st)
    (isModalOpen st) (editingItem st) (sortConfig st) (currentPage st)
    (itemsPerPage st) (selectedCategory st) b (itemToDelete st).

Definition setItemToDelete (d : option (string * string)) (st : App) : App :=
  mkApp (inventoryItems st) (itemsRef st) (isLoading st) (searchTerm st)
    (isModalOpen st) (editingItem st) (sortConfig st) (currentPage st)
    (itemsPerPage st) (selectedCategory st) (isDeleteConfirmModalOpen st) d.

(** The [useState] initialisers. *)
Definition initialApp : App :=
  mkApp [] 0 true "" false None (mkSortConfig (Some KlastUpdated) descending)
    1 PerPage10 "" false None.

(** ** Handlers *)

(** ['id' in itemData] tells the two members of the union apart. *)
Definition handleItemFormSubmit
    (itemData : NewInventoryItem + InventoryItem) (dateNow newDate : Z)
    (st : App) : App :=
  let st :=
    match itemData with
    | inr itemData => setInventoryItems (updateItem itemData newDate) st
    | inl itemData => setInventoryItems (createItem itemData dateNow newDate) st
    end in
  setEditingItem None (setIsModalOpen false st).

Definition handleDeleteRequest (itemId itemName : string) (st : App) : App :=
  setIsDeleteConfirmModalOpen true (setItemToDelete (Some (itemId, itemName)) st).

Definition confirmDeleteItem (st : App) : App :=
  let st :=
    match itemToDelete st with
    | Some (itemId, _) => setInventoryItems (deleteItem itemId) st
    | None => st
    end in
  setItemToDelete None (setIsDeleteConfirmModalOpen false st).

Definition openAddModal (st : App) : App :=
  setIsModalOpen true (setEditingItem None st).

Definition openEditModal (item : InventoryItem) (st : App) : App :=
  setIsModalOpen true (setEditingItem (Some item) st).

Definition closeModal (st : App) : App :=
  setEditingItem None (setIsModalOpen false st).

Definition ItemKey_eqb (a b : ItemKey) : bool :=
  match a, b with
  | Kid, Kid | Kname, Kname | Kquantity, Kquantity | Kprice, Kprice
  | Kcategory, Kcategory | Ksku, Ksku | KlastUpdated, KlastUpdated => true
  | _, _ => false
  end.

Definition requestSort (k : ItemKey) (st : App) : App :=
  let flip :=
    match key (sortConfig st), direction (sortConfig st) with
    | Some k', ascending => ItemKey_eqb k' k
    | _, _ => false
    end in
  let dir := if flip then descending else ascending in
  setCurrentPage 1 (setSortConfig (mkSortConfig (Some k) dir) st).

Definition handleCategoryChange (c : string) (st : App) : App :=
  setCurrentPage 1 (setSelectedCategory c st).

Definition onItemsPerPageChange (newSize : ItemsPerPage) (st : App) : App :=
  setCurrentPage 1 (setItemsPerPage newSize st).

(** What the table shows. *)
Definition visibleItems (st : App) : list InventoryItem :=
  paginatedItems
    (filteredAndSortedItems (inventoryItems st) (searchTerm st)
       (selectedCategory st) (sortConfig st))
    (currentPage st) (itemsPerPage st).

(** The values handed to the four [DashboardStatsCard]s. *)
Record Dashboard : Type := mkDashboard {
  cardTotalItems : number;
  cardUniqueSKUs : nat;
  cardTotalValue : number;
  cardLowStock : nat
}.

Definition dashboard (st : App) : Dashboard :=
  {| cardTotalItems := totalItemsInStock (inventoryItems st);
     cardUniqueSKUs := uniqueProductSKUs (inventoryItems st);
     cardTotalValue := totalInventoryValue (inventoryItems st);
     cardLowStock := lowStockItemsCount (inventoryItems st) |}.

(** ** Effects and localStorage

    [setItemLog] records the calls of [localStorage.setItem], latest
    first. *)

Record World : Type := mkWorld {
  app : App;
  localStorage : gmap string string;
  setItemLog : list (string * string)
}.

Definition localStorage_setItem (k v : string) (w : World) : World :=
  mkWorld (app w) (<[k := v]> (localStorage w)) ((k, v) :: setItemLog w).

(** The callback of the load effect's [setTimeout]. A stored empty string
    is falsy and falls back to the initial data like a missing key. The
    two state updates are taken as one render; rendered one by one, the
    first render still has [isLoading = true] and its save effect writes
    nothing, so the writes are the same. *)
Definition loadTimeout (t0 : Z) (storage : gmap string string) (st : App)
    : App :=
  let loaded :=
    match storage !! "inventoryItems" with
    | Some storedItems =>
        if truthy storedItems then
          match JSON_parse storedItems with
          | Some items => items
          | None => initialItems t0
          end
        else initialItems t0
    | None => initialItems t0
    end in
  setIsLoading false (setInventoryItems (fun _ => loaded) st).

(** The save effect, with dependencies [[inventoryItems, isLoading]]: after
    a render it runs when one of them differs from the previous render. *)
Definition saveEffect (prev : App) (w : World) : World :=
  let next := app w in
  if Nat.eqb (itemsRef prev) (itemsRef next)
     && Bool.eqb (isLoading prev) (isLoading next)
  then w
  else if negb (isLoading next)
  then localStorage_setItem "inventoryItems"
         (JSON_stringify (inventoryItems next)) w
  else w.

Inductive Event : Type :=
  | LoadTimeout
  | ItemFormSubmit (itemData : NewInventoryItem + InventoryItem)
      (dateNow newDate : Z)
  | DeleteRequest (itemId itemName : string)
  | ConfirmDelete
  | OpenAdd
  | OpenEdit (item : InventoryItem)
  | CloseModal
  | SearchChange (term : string)
  | RequestSort (k : ItemKey)
  | CategoryChange (c : string)
  | PageChange (p : Z)
  | ItemsPerPageChange (n : ItemsPerPage).

Definition handle (t0 : Z) (e : Event) (storage : gmap string string)
    (st : App) : App :=
  match e with
  | LoadTimeout => loadTimeout t0 storage st
  | ItemFormSubmit itemData dateNow newDate =>
      handleItemFormSubmit itemData dateNow newDate st
  | DeleteRequest itemId itemName => handleDeleteRequest itemId itemName st
  | ConfirmDelete => confirmDeleteItem st
  | OpenAdd => openAddModal st
  | OpenEdit item => openEditModal item st
  | CloseModal => closeModal st
  | SearchChange term => setSearchTerm term st
  | RequestSort k => requestSort k st
  | CategoryChange c => handleCategoryChange c st
  | PageChange p => setCurrentPage p st
  | ItemsPerPageChange n => onItemsPerPageChange n st
  end.

(** One event: the handler's state updates, one render, then the effects. *)
Definition step (t0 : Z) (e : Event) (w : World) : World :=
  let prev := app w in
  saveEffect prev
    (mkWorld (handle t0 e (localStorage w) prev) (localStorage w)
       (setItemLog w)).

(** After mounting: the first render ran the save effect with
    [isLoading = true], which writes nothing. *)
Definition mount (storage : gmap string string) : World :=
  mkWorld initialApp storage [].

Definition run (t0 : Z) (events : list Event) (w : World) : World :=
  fold_left (fun w e => step t0 e w) events w.

(** A form submission with its two clock readings, as an event. *)
Definition submitEvent (s : (NewInventoryItem + InventoryItem) * Z * Z)
    : Event :=
  let '(itemData, dateNow, newDate) := s in
  ItemFormSubmit itemData dateNow newDate.

End App.

(** ** Reference notions the properties are stated against *)

(** [term] occurs in [s] once both are lower-cased. *)
Definition containsIgnoringCase `{Host} (s term : string) : Prop :=
  exists pre post : string,
    toLowerCase s = (pre ++ toLowerCase term ++ post)%string.

(** The two filter steps of the query, read as one condition on an item. *)
Definition Kept `{Host} (searchTerm selectedCategory : string)
    (item : InventoryItem) : Prop :=
  (searchTerm <> EmptyString ->
     containsIgnoringCase (name item) searchTerm \/
     containsIgnoringCase (sku item) searchTerm \/
     containsIgnoringCase (category item) searchTerm)
  /\ (selectedCategory <> EmptyString -> category item = selectedCategory).

(** The sort step of the query on its own. *)
Definition sortStep `{Host} (cfg : SortConfig) (items : list InventoryItem)
    : list InventoryItem :=
  match key cfg with
  | Some k => Array_sort (comparator k (direction cfg)) items
  | None => items
  end.

(** The comparator does not place [a] after [b]. *)
Definition notAfter {A : Type} (comparefn : A -> A -> number) (a b : A)
    : Prop :=
  SortCompare (comparefn a b) <> Gt.

(** A comparator that is consistent on the members of [l]: of two members
    one is not after the other, and "not after" is transitive. *)
Definition consistentOn {A : Type} (comparefn : A -> A -> number)
    (l : list A) : Prop :=
  (forall a b, In a l -> In b l ->
     SortCompare (comparefn a b) = Gt -> notAfter comparefn b a)
  /\ (forall a b c, In a l -> In b l -> In c l ->
        notAfter comparefn a b -> notAfter comparefn b c ->
        notAfter comparefn a c).

(** [a] occurs in [l] at some place before an occurrence of [b]. *)
Definition occursBefore {A : Type} (a b : A) (l : list A) : Prop :=
  exists l1 l2 l3, l = l1 ++ a :: l2 ++ b :: l3.

(** The mutating operations: a form submission (add or update) and a
    confirmed deletion. *)
Definition mutates (st : App) (e : Event) : bool :=
  match e with
  | ItemFormSubmit _ _ _ => true
  | ConfirmDelete =>
      match itemToDelete st with Some _ => true | None => false end
  | _ => false
  end.

(** The rational number a finite binary64 value stands for. *)
Definition exactQ (x : number) : option Q :=
  match Prim2SF x with
  | S754_zero _ => Some 0%Q
  | S754_finite s m e =>
      let mag :=
        match e with
        | Z0 => Qmake (Zpos m) 1
        | Zpos p => Qmake (Zpos m * 2 ^ Zpos p) 1
        | Zneg p => Qmake (Zpos m) (2 ^ p)
        end in
      Some (if s then Qopp mag else mag)
  | _ => None
  end.

(** The sum of [quantity * price] over the stored values, in exact
    rational arithmetic. *)
Fixpoint exactInventoryValue (items : list InventoryItem) : option Q :=
  match items with
  | [] => Some 0%Q
  | item :: rest =>
      match exactQ (quantity item), exactQ (price item),
            exactInventoryValue rest with
      | Some q, Some p, Some v => Some (Qred (q * p + v))
      | _, _, _ => None
      end
  end.

(** ** A small host for evaluating examples

    ASCII case folding, code-unit order, instants written as epoch
    milliseconds, and a serialisation that lists the ids. *)

Definition ascii_toLower (c : ascii) : ascii :=
  let n := nat_of_ascii c in
  if Nat.leb 65 n && Nat.leb n 90 then ascii_of_nat (n + 32) else c.

Fixpoint ascii_toLowerCase (s : string) : string :=
  match s with
  | EmptyString => EmptyString
  | String c s' => String (ascii_toLower c) (ascii_toLowerCase s')
  end.

Definition codeUnitCompare (a b : string) : number :=
  match String.compare a b with
  | Lt => (-1)%float
  | Eq => 0%float
  | Gt => 1%float
  end.

Definition exampleHost : Host :=
  {| toLowerCase := ascii_toLowerCase;
     localeCompare := codeUnitCompare;
     toISOString := Number_toString;
     JSON_stringify := fun items => String.concat "," (List.map id items);
     JSON_parse := fun _ => None |}.

Definition sampleItem (i nm : string) (q p : number) (c : string)
    : InventoryItem :=
  mkItem i nm q p c (i ++ "-sku")%string "2024-01-01T00:00:00.000Z".

(** Three units at a price of 0.1. *)
Definition driftItems : list InventoryItem :=
  [sampleItem "a" "Washer" 3%float 0.1%float "Hardware"].

(** Twelve rows, ids "1" to "12". *)
Definition manyItems : list InventoryItem :=
  List.map
    (fun n => sampleItem (Number_toString (Z.of_nat n)) "Bolt" 1%float
                0.25%float "Hardware")
    (seq 1 12).

Definition officeItems : list InventoryItem :=
  [ sampleItem "1" "Pen" 5%float 1.5%float "Office";
    sampleItem "2" "Mug" 3%float 4%float "Kitchen";
    sampleItem "3" "Ink" 5%float 9%float "Office" ].

Definition samplePayload : NewInventoryItem :=
  mkNewItem "Desk Lamp" 4%float 19.99%float "Furniture" "DL-008".

(** The application once the initial data has been loaded into an empty
    store. *)
Definition loadedWorld : World :=
  step (H := exampleHost) 0 LoadTimeout (mount ∅).

Definition loadedApp : App := app loadedWorld.

(** ** The sort as the V8 engine runs it

    The component runs in a browser, and the order [sort] gives for a
    comparator that is not consistent is the engine's. V8 sorts with
    TimSort ([ArrayTimSortImpl] in [third_party/v8/builtins/array-sort.tq]).
    For fewer than 64 elements the minimal run length is the length of
    the array, so the whole array is one run:

    - [CountAndMakeRun] compares the second element with the first,
      [order = Compare(a[1], a[0])], and the run is descending when
      [order < 0]; it then goes on through the array comparing each
      element with the one before it, [order = Compare(current,
      previous)], as long as [order < 0] for a descending run and
      [order >= 0] otherwise; a descending run is reversed in place;
    - [BinaryInsertionSort] takes each element after the run as [pivot]
      and searches the part already ordered, from [left = 0] to [right =]
      its length: with [mid = left + ((right - left) >> 1)] and [order =
      Compare(pivot, a[mid])], [right = mid] when [order < 0] and [left =
      mid + 1] otherwise; the pivot goes in at [left].

    [Compare] calls the comparator and reads NaN as 0, as [SortCompare]
    does. *)

(** [order < 0] *)
Definition isBelow (c : comparison) : bool :=
  match c with Lt => true | _ => false end.

(** How many elements after the first two continue the run. *)
Fixpoint runTail {A : Type} (comparefn : A -> A -> number)
    (descending : bool) (previous : A) (rest : list A) : nat :=
  match rest with
  | [] => 0
  | current :: rest' =>
      if Bool.eqb (isBelow (SortCompare (comparefn current previous)))
           descending
      then S (runTail comparefn descending current rest')
      else 0
  end.

(** [CountAndMakeRun]: the run, made ascending, and the elements after
    it. An array of fewer than two elements is its own run. *)
Definition countAndMakeRun {A : Type} (comparefn : A -> A -> number)
    (l : list A) : list A * list A :=
  match l with
  | first :: second :: rest =>
      let descending := isBelow (SortCompare (comparefn second first)) in
      let runLength := 2 + runTail comparefn descending second rest in
      let run := firstn runLength l in
      (if descending then rev run else run, skipn runLength l)
  | _ => (l, [])
  end.

(** The loop [while (left < right)] of [BinaryInsertionSort]: the place
    of [pivot] in [sorted], between [left] and [right]. The interval
    shrinks at every turn, so [fuel] above its width is enough. *)
Fixpoint binarySearch {A : Type} (fuel : nat)
    (comparefn : A -> A -> number) (pivot : A) (sorted : list A)
    (left right : nat) : nat :=
  match fuel with
  | 0 => left
  | S fuel' =>
      if Nat.ltb left right then
        let mid := left + Nat.div2 (right - left) in
        match nth_error sorted mid with
        | Some element =>
            if isBelow (SortCompare (comparefn pivot element))
            then binarySearch fuel' comparefn pivot sorted left mid
            else binarySearch fuel' comparefn pivot sorted (S mid) right
        | None => left
        end
      else left
  end.

(** One turn of the outer loop of [BinaryInsertionSort]. *)
Definition binaryInsert {A : Type} (comparefn : A -> A -> number)
    (sorted : list A) (pivot : A) : list A :=
  let place :=
    binarySearch (S (length sorted)) comparefn pivot sorted 0
      (length sorted) in
  firstn place sorted ++ pivot :: skipn place sorted.

(** [l.sort(comparefn)] on V8, for [l] of fewer than 64 elements. *)
Definition Array_sort_V8 {A : Type} (comparefn : A -> A -> number)
    (l : list A) : list A :=
  let (run, rest) := countAndMakeRun comparefn l in
  fold_left (binaryInsert comparefn) rest run.

(** The comparator answers for [b] against [a] the opposite of what it
    answers for [a] against [b], for the members of [l]. Subtraction and
    [localeCompare] do. *)
Definition symmetricOn {A : Type} (comparefn : A -> A -> number)
    (l : list A) : Prop :=
  forall a b, In a l -> In b l ->
    SortCompare (comparefn a b) = CompOpp (SortCompare (comparefn b a)).

(** The comparator finds [x] and [y] equal. *)
Definition tiesWith {A : Type} (comparefn : A -> A -> number) (x y : A)
    : bool :=
  match SortCompare (comparefn x y) with Eq => true | _ => false end.

(** [current] continues a run after [previous]. *)
Definition inRun {A : Type} (comparefn : A -> A -> number)
    (descending : bool) (previous current : A) : Prop :=
  isBelow (SortCompare (comparefn current previous)) = descending.

(** Four rows with the quantities 2, 1, NaN and 1. *)
Definition nanItems : list InventoryItem :=
  [ sampleItem "100" "Nut" 2%float 0.5%float "Hardware";
    sampleItem "101" "Bolt" 1%float 0.5%float "Hardware";
    sampleItem "102" "Shim" nan 0.5%float "Hardware";
    sampleItem "103" "Clip" 1%float 0.5%float "Hardware" ].

(** ** The rest of the component

    The category list handed to [CategoryFilter], the page count handed to
    [Pagination], and the theme: the dark-mode flag, the [dark] class of
    the document element and the ["theme"] key of [localStorage]. *)

(** [Array.from(new Set(l))]: the distinct members of [l], each at the
    place of its first occurrence. *)
Fixpoint Set_addAll (seen l : list string) : list string :=
  match l with
  | [] => seen
  | x :: rest =>
      Set_addAll
        (if existsb (String.eqb x) seen then seen else seen ++ [x]) rest
  end.

Definition Array_from_Set (l : list string) : list string := Set_addAll [] l.

(** [sort()] without a comparator orders strings by their code units,
    which is the three-way answer of [codeUnitCompare]. *)
Definition categories (inventoryItems : list InventoryItem) : list string :=
  Array_sort codeUnitCompare
    (Array_from_Set (List.map category inventoryItems)).

(** [Math.ceil(length / itemsPerPage)]. The double quotient of a length
    below 2^50 by 10, 25 or 50 lies on the same side of every integer as
    the exact quotient, so its ceiling is the ceiling of the exact one. *)
Definition totalPages (filteredAndSorted : list InventoryItem)
    (itemsPerPage : ItemsPerPage) : Z :=
  let (q, r) :=
    Z.div_eucl (Z.of_nat (length filteredAndSorted)) (perPage itemsPerPage) in
  if (r =? 0)%Z then q else (q + 1)%Z.

(** The two conditional filter steps of the query as one test. *)
Definition passesFilters `{Host} (searchTerm selectedCategory : string)
    (item : InventoryItem) : bool :=
  (negb (truthy searchTerm) || matchesSearch searchTerm item)
  && (negb (truthy selectedCategory)
      || String.eqb (category item) selectedCategory).

(** The note under the low-stock card. *)
Definition lowStockSubValue (lowStockItemsCount : nat) : string :=
  if Nat.ltb 0 lowStockItemsCount then "Needs attention" else "All good!".

(** [darkClass]: the document element carries the class [dark]. *)
Record Theme : Type := mkTheme {
  darkMode : bool;
  darkClass : bool
}.

(** The theme half of the load effect. [prefersDark] is what
    [window.matchMedia] answers, [false] where it is missing. A missing key
    and a stored empty string are both falsy. *)
Definition loadTheme (prefersDark : bool) (storage : gmap string string)
    (th : Theme) : Theme :=
  let localTheme := storage !! "theme" in
  let isDark :=
    match localTheme with Some s => String.eqb s "dark" | None => false end in
  let isSet :=
    match localTheme with Some s => truthy s | None => false end in
  if isDark || (negb isSet && prefersDark)
  then mkTheme true true
  else mkTheme (darkMode th) false.

(** The updater handed to [setDarkMode]; its two writes go through
    [localStorage.setItem] like any other. The save effect does not depend
    on the mode and does not run. *)
Definition toggleDarkMode (th : Theme) (w : World) : Theme * World :=
  let newMode := negb (darkMode th) in
  if newMode
  then (mkTheme newMode true, localStorage_setItem "theme" "dark" w)
  else (mkTheme newMode false, localStorage_setItem "theme" "light" w).

(** [useState(false)], over a document whose class list is [cls]. *)
Definition initialTheme (cls : bool) : Theme := mkTheme false cls.

(** [() => setIsDeleteConfirmModalOpen(false)]: the delete confirmation's
    close and Cancel buttons. *)
Definition cancelDelete (st : App) : App :=
  setIsDeleteConfirmModalOpen false st.

(** Every id of the list is the decimal string of an instant before
    [bound]. *)
Definition mintedBefore (bound : Z) (ids : list string) : Prop :=
  forall i, In i ids -> exists t, i = Number_toString t /\ (t < bound)%Z.


(** ** The component as a whole

    The state and the store of [World] together with the theme, under
    every handler of the component: the events of [Event], the cancel
    button and the theme toggle. The theme half of the load effect runs at
    mount, outside the timeout. *)

Record Browser : Type := mkBrowser {
  world : World;
  theme : Theme
}.

Inductive UiEvent : Type :=
  | Core (e : Event)
  | CancelDelete
  | ToggleDarkMode.

Definition uiStep `{Host} (t0 : Z) (u : UiEvent) (b : Browser) : Browser :=
  let w := world b in
  match u with
  | Core e => mkBrowser (step t0 e w) (theme b)
  | CancelDelete =>
      mkBrowser
        (saveEffect (app w)
           (mkWorld (cancelDelete (app w)) (localStorage w) (setItemLog w)))
        (theme b)
  | ToggleDarkMode =>
      let toggled := toggleDarkMode (theme b) w in
      mkBrowser (snd toggled) (fst toggled)
  end.

Definition uiRun `{Host} (t0 : Z) (events : list UiEvent) (b : Browser)
    : Browser :=
  fold_left (fun b u => uiStep t0 u b) events b.

Definition mountBrowser (prefersDark cls : bool)
    (storage : gmap string string) : Browser :=
  mkBrowser (mount storage) (loadTheme prefersDark storage (initialTheme cls)).

(** The word the toggle stores for a mode. *)
Definition themeName (dark : bool) : string :=
  if dark then "dark" else "light".

(** A short session: the load, the theme toggled, an add, a deletion asked
    for, cancelled, asked for again and confirmed. *)
Definition sessionEvents : list UiEvent :=
  [ Core LoadTimeout;
    ToggleDarkMode;
    Core (ItemFormSubmit (inl samplePayload) 1700000000000 1700000000000);
    Core (DeleteRequest "2" "Wireless Mouse");
    CancelDelete;
    Core (DeleteRequest "2" "Wireless Mouse");
    Core ConfirmDelete ].

(** The collection at the end of that session. *)
Definition sessionArchive : list InventoryItem :=
  inventoryItems
    (app (world (uiRun (H := exampleHost) 0 sessionEvents
                   (mountBrowser false false ∅)))).

(** A host whose [JSON.parse] reads back the one document that
    [exampleHost] writes for [archive]. *)
Definition archiveHost (archive : list InventoryItem) : Host :=
  {| toLowerCase := ascii_toLowerCase;
     localeCompare := codeUnitCompare;
     toISOString := Number_toString;
     JSON_stringify := @JSON_stringify exampleHost;
     JSON_parse := fun s =>
       if String.eqb s (@JSON_stringify exampleHost archive)
       then Some archive else None |}.

(** * Properties *)

(** Closes [~ In i ids] for a literal list [ids] without [i]. *)
Ltac no_such_id :=
  cbn; intros Hin;
  repeat (destruct Hin as [Hin|Hin]; [discriminate Hin|]);
  exact Hin.

(** Closes [consistentOn comparefn l] for a literal list [l] by running
    the comparator on every pair and triple. *)
Ltac each_member :=
  repeat match goal with
         | H : In _ _ |- _ => vm_compute in H
         | H : _ \/ _ |- _ => destruct H as [<-|H]
         | H : False |- _ => destruct H
         end.

Ltac consistent_by_cases :=
  split;
  [ intros a b Ha Hb | intros a b c Ha Hb Hc ];
  each_member; unfold notAfter; vm_compute; intros;
  solve [congruence | tauto].

(** Closes [symmetricOn comparefn l] for a literal list in the same way. *)
Ltac symmetric_by_cases :=
  intros a b Ha Hb; each_member; vm_compute; reflexivity.

(** ** Strings *)

Lemma truthy_true (s : string) : truthy s = true <-> s <> EmptyString.
Proof.
  unfold truthy. destruct s; simpl; split; intros E; congruence.
Qed.

Lemma truthy_false (s : string) : truthy s = false <-> s = EmptyString.
Proof.
  unfold truthy. destruct s; simpl; split; intros E; congruence.
Qed.

Lemma prefix_split (t s : string) :
  String.prefix t s = true <-> exists post, s = (t ++ post)%string.
Proof.
  revert s. induction t as [|c t IH]; intros s; simpl.
  - destruct s; split; eauto.
  - destruct s as [|d s].
    + split; [discriminate | intros [post E]; discriminate].
    + simpl. destruct (ascii_dec c d) as [->|Hne].
      * rewrite IH. split; intros [post E]; exists post.
        -- now rewrite E.
        -- now injection E.
      * split; [discriminate | intros [post E]; injection E; congruence].
Qed.

Lemma includes_split (s t : string) :
  includes s t = true <->
  exists pre post, s = (pre ++ t ++ post)%string.
Proof.
  induction s as [|c s IH]; cbn [includes].
  - rewrite orb_false_r, prefix_split. split.
    + intros [post E]. exists EmptyString, post. exact E.
    + intros [pre [post E]]. destruct pre; simpl in E; [eauto | discriminate].
  - rewrite orb_true_iff, prefix_split, IH. split.
    + intros [[post E] | [pre [post E]]].
      * exists EmptyString, post. exact E.
      * exists (String c pre), post. simpl. now rewrite E.
    + intros [pre [post E]]. destruct pre as [|d pre]; simpl in E.
      * left. eauto.
      * right. exists pre, post. now injection E.
Qed.

(** ** Sorting *)

Section Sorting.
Context {A : Type} (comparefn : A -> A -> number).

Lemma insert_Permutation (x : A) (l : list A) :
  Permutation (insert comparefn x l) (x :: l).
Proof.
  induction l as [|y l IH]; simpl; [reflexivity|].
  destruct (SortCompare (comparefn x y)); try reflexivity.
  rewrite IH. apply perm_swap.
Qed.

Lemma In_insert (b x : A) (l : list A) :
  In b (insert comparefn x l) <-> In b (x :: l).
Proof.
  split; apply Permutation_in;
    [|symmetry]; apply insert_Permutation.
Qed.

Lemma Array_sort_Permutation (l : list A) :
  Permutation (Array_sort comparefn l) l.
Proof.
  induction l as [|x l IH]; simpl; [reflexivity|].
  rewrite insert_Permutation. now apply perm_skip.
Qed.

Lemma In_Array_sort (a : A) (l : list A) :
  In a (Array_sort comparefn l) <-> In a l.
Proof.
  split; apply Permutation_in;
    [|symmetry]; apply Array_sort_Permutation.
Qed.

(** For a consistent comparator the result is in the comparator's
    order. *)
Lemma insert_sorted (l0 : list A) (x : A) (s : list A) :
  consistentOn comparefn l0 -> In x l0 -> (forall y, In y s -> In y l0) ->
  StronglySorted (notAfter comparefn) s ->
  StronglySorted (notAfter comparefn) (insert comparefn x s).
Proof.
  intros [Htotal Htrans] Hx. induction s as [|y s IH]; intros Hs Hsorted.
  - repeat constructor.
  - apply StronglySorted_inv in Hsorted as [Hsorted Hy].
    assert (Hfront : notAfter comparefn x y ->
              StronglySorted (notAfter comparefn) (x :: y :: s)).
    { intros Hxy. constructor; [now constructor|]. constructor; [exact Hxy|].
      rewrite List.Forall_forall in Hy |- *. intros z Hz.
      apply (Htrans x y z); auto using in_eq, in_cons. }
    cbn [insert]. unfold notAfter in Hfront at 1.
    destruct (SortCompare (comparefn x y)) eqn:E.
    + now apply Hfront.
    + now apply Hfront.
    + constructor.
      * apply IH; [|exact Hsorted]. intros z Hz. apply Hs. now right.
      * rewrite List.Forall_forall in Hy |- *. intros z Hz.
        apply In_insert in Hz as [<-|Hz]; [|now apply Hy].
        apply Htotal; auto using in_eq.
Qed.

Lemma Array_sort_sorted (l : list A) :
  consistentOn comparefn l ->
  StronglySorted (notAfter comparefn) (Array_sort comparefn l).
Proof.
  intros Hcons.
  assert (Hgen : forall l', (forall y, In y l' -> In y l) ->
            StronglySorted (notAfter comparefn) (Array_sort comparefn l')).
  { induction l' as [|x l' IH]; intros Hincl; [constructor|].
    cbn [Array_sort fold_right]. fold (Array_sort comparefn l').
    apply (insert_sorted l); auto using in_eq.
    - intros y Hy. apply Hincl. right. now apply In_Array_sort.
    - apply IH. intros y Hy. apply Hincl. now right. }
  now apply Hgen.
Qed.

(** Inserting [x] does not move it past a member of its own group. *)
Lemma insert_keeps_group (P : A -> bool) (x : A) (l : list A) :
  (forall y, In y l -> P x = true -> P y = true ->
             SortCompare (comparefn x y) = Eq) ->
  List.filter P (insert comparefn x l) = List.filter P (x :: l).
Proof.
  induction l as [|y l IH]; intros Hgroup; [reflexivity|].
  cbn [insert].
  destruct (SortCompare (comparefn x y)) eqn:E; try reflexivity.
  assert (Hxy : P x = true -> P y = true -> False).
  { intros Px Py. rewrite (Hgroup y) in E by (auto; now left).
    discriminate. }
  cbn [List.filter]. rewrite IH by (intros z Hz; apply Hgroup; now right).
  cbn [List.filter].
  destruct (P x) eqn:Px, (P y) eqn:Py; try reflexivity.
  now destruct Hxy.
Qed.

Lemma Array_sort_keeps_group (P : A -> bool) (l : list A) :
  (forall a b, In a l -> In b l -> P a = true -> P b = true ->
               SortCompare (comparefn a b) = Eq) ->
  List.filter P (Array_sort comparefn l) = List.filter P l.
Proof.
  induction l as [|x l IH]; intros Hgroup; [reflexivity|].
  cbn [Array_sort fold_right]. fold (Array_sort comparefn l).
  rewrite insert_keeps_group.
  - cbn [List.filter]. rewrite IH; [reflexivity|].
    intros a b Ha Hb. apply Hgroup; now right.
  - intros y Hy. apply Hgroup; [now left|].
    right. now apply In_Array_sort.
Qed.

Lemma occursBefore_cons (a b y : A) (l : list A) :
  occursBefore a b l -> occursBefore a b (y :: l).
Proof.
  intros (l1 & l2 & l3 & ->). now exists (y :: l1), l2, l3.
Qed.

Lemma occursBefore_head (a b : A) (l : list A) :
  In b l -> occursBefore a b (a :: l).
Proof.
  intros Hb. apply in_split in Hb as (l2 & l3 & ->). now exists [], l2, l3.
Qed.

Lemma occursBefore_inv (a b y : A) (l : list A) :
  occursBefore a b (y :: l) ->
  (y = a /\ In b l) \/ occursBefore a b l.
Proof.
  intros (l1 & l2 & l3 & E). destruct l1 as [|z l1]; simpl in E.
  - injection E as -> ->. left. split; [reflexivity|].
    apply in_or_app. right. now left.
  - injection E as -> ->. right. now exists l1, l2, l3.
Qed.

(** Inserting [x] leaves the members of [l] in their order. *)
Lemma insert_keeps_order (a b x : A) (l : list A) :
  occursBefore a b l -> occursBefore a b (insert comparefn x l).
Proof.
  induction l as [|y l IH]; intros Hab.
  - destruct Hab as (l1 & l2 & l3 & E). now destruct l1.
  - cbn [insert].
    destruct (SortCompare (comparefn x y));
      try now apply occursBefore_cons.
    apply occursBefore_inv in Hab as [[-> Hb] | Hab].
    + apply occursBefore_head, In_insert. now right.
    + now apply occursBefore_cons, IH.
Qed.

(** [a] is inserted in front of every [b] that it does not exceed. *)
Lemma insert_stops_before (a b : A) (l : list A) :
  In b l -> SortCompare (comparefn a b) <> Gt ->
  occursBefore a b (insert comparefn a l).
Proof.
  induction l as [|y l IH]; intros Hb Hle; [destruct Hb|].
  cbn [insert].
  destruct (SortCompare (comparefn a y)) eqn:E;
    try now apply occursBefore_head.
  destruct Hb as [->|Hb]; [contradiction|].
  now apply occursBefore_cons, IH.
Qed.

Lemma Array_sort_keeps_order (a b : A) (l : list A) :
  occursBefore a b l -> SortCompare (comparefn a b) <> Gt ->
  occursBefore a b (Array_sort comparefn l).
Proof.
  induction l as [|x l IH]; intros Hab Hle.
  - destruct Hab as (l1 & l2 & l3 & E). now destruct l1.
  - cbn [Array_sort fold_right]. fold (Array_sort comparefn l).
    apply occursBefore_inv in Hab as [[-> Hb] | Hab].
    + apply insert_stops_before; [|exact Hle]. now apply In_Array_sort.
    + now apply insert_keeps_order, IH.
Qed.

End Sorting.

Lemma SortCompare_zero : SortCompare 0%float = Eq.
Proof. reflexivity. Qed.

Lemma SortCompare_neg_zero : SortCompare (- 0)%float = Eq.
Proof. reflexivity. Qed.

(** ** The engine's sort

    With a comparator that is consistent and symmetric on the array, the
    order the engine produces is in the comparator's order and keeps every
    group of equal items as it was; there is one such order, and it is the
    one [Array_sort] gives. *)

Section Engine.
Context {A : Type} (comparefn : A -> A -> number) (l0 : list A).
Hypothesis Hcons : consistentOn comparefn l0.
Hypothesis Hsym : symmetricOn comparefn l0.

Local Abbreviation le := (notAfter comparefn).
Local Abbreviation below p e := (isBelow (SortCompare (comparefn p e))).
Local Abbreviation inRun := (inRun comparefn).

Lemma le_trans_on (a b c : A) :
  In a l0 -> In b l0 -> In c l0 -> le a b -> le b c -> le a c.
Proof. destruct Hcons as [_ Ht]. apply Ht. Qed.

Lemma below_false_le (p e : A) :
  In p l0 -> In e l0 -> below p e = false <-> le e p.
Proof.
  intros Hp He. unfold notAfter. rewrite (Hsym e p He Hp).
  destruct (SortCompare (comparefn p e)); cbn; split; congruence.
Qed.

Lemma below_true_le (p e : A) :
  In p l0 -> In e l0 -> below p e = true -> le p e.
Proof.
  intros Hp He. unfold notAfter.
  destruct (SortCompare (comparefn p e)); cbn; congruence.
Qed.

Lemma below_true_not_le (p e : A) :
  In p l0 -> In e l0 -> below p e = true <-> ~ le e p.
Proof.
  intros Hp He. rewrite <- below_false_le by assumption.
  destruct (below p e); split; congruence.
Qed.

Lemma ties_le (x y : A) :
  In x l0 -> In y l0 -> tiesWith comparefn x y = true <-> le x y /\ le y x.
Proof.
  intros Hx Hy. unfold tiesWith, notAfter. rewrite (Hsym y x Hy Hx).
  destruct (SortCompare (comparefn x y)); cbn; split;
    try congruence; try (intros [? ?]; congruence); split; congruence.
Qed.

Lemma ties_refl (x : A) : In x l0 -> tiesWith comparefn x x = true.
Proof.
  intros Hx. unfold tiesWith. pose proof (Hsym x x Hx Hx) as E.
  destruct (SortCompare (comparefn x x)); cbn in E; congruence.
Qed.

Lemma le_refl_on (x : A) : In x l0 -> le x x.
Proof. intros Hx. now apply (ties_le x x Hx Hx), ties_refl. Qed.

(** Lists in order. *)

Lemma StronglySorted_nth (R : A -> A -> Prop) (s : list A) :
  StronglySorted R s ->
  forall i j a b, i < j -> nth_error s i = Some a -> nth_error s j = Some b ->
  R a b.
Proof.
  induction 1 as [|x s Hs IH Hx]; intros i j a b Hij Ha Hb.
  - destruct i; discriminate.
  - destruct j as [|j]; [lia|]. cbn in Hb. destruct i as [|i].
    + cbn in Ha. injection Ha as <-.
      rewrite List.Forall_forall in Hx. apply Hx.
      eapply nth_error_In; eassumption.
    + cbn in Ha. apply (IH i j); [lia|assumption..].
Qed.

Lemma StronglySorted_app_intro (R : A -> A -> Prop) (l1 l2 : list A) :
  StronglySorted R l1 -> StronglySorted R l2 ->
  (forall a b, In a l1 -> In b l2 -> R a b) ->
  StronglySorted R (l1 ++ l2).
Proof.
  induction 1 as [|x l1 Hs IH Hx]; intros H2 Hcross; [exact H2|].
  cbn. constructor.
  - apply IH; [exact H2|]. intros a b Ha Hb. apply Hcross; [now right|exact Hb].
  - apply List.Forall_forall. intros y Hy. apply in_app_or in Hy.
    destruct Hy as [Hy|Hy].
    + rewrite List.Forall_forall in Hx. now apply Hx.
    + apply Hcross; [now left|exact Hy].
Qed.

Lemma StronglySorted_app_elim (R : A -> A -> Prop) (l1 l2 : list A) :
  StronglySorted R (l1 ++ l2) ->
  StronglySorted R l1 /\ StronglySorted R l2
  /\ (forall a b, In a l1 -> In b l2 -> R a b).
Proof.
  induction l1 as [|x l1 IH]; cbn; intros Hs.
  - split; [constructor|]. split; [exact Hs|]. intros a b [].
  - inversion Hs as [|? ? Hs' Hx]; subst.
    destruct (IH Hs') as (H1 & H2 & Hcross).
    rewrite List.Forall_forall in Hx.
    split; [|split; [exact H2|]].
    + constructor; [exact H1|]. apply List.Forall_forall. intros y Hy.
      apply Hx, in_or_app. now left.
    + intros a b [<-|Ha] Hb.
      * apply Hx, in_or_app. now right.
      * now apply Hcross.
Qed.

(** The binary search. *)

Lemma binarySearch_place (p : A) (s : list A) :
  In p l0 -> (forall y, In y s -> In y l0) ->
  StronglySorted le s ->
  forall fuel left right,
    left <= right <= length s -> right - left < fuel ->
    (forall j e, j < left -> nth_error s j = Some e -> below p e = false) ->
    (forall j e, right <= j -> nth_error s j = Some e -> below p e = true) ->
    let place := binarySearch fuel comparefn p s left right in
    place <= length s
    /\ (forall j e, j < place -> nth_error s j = Some e -> below p e = false)
    /\ (forall j e, place <= j -> nth_error s j = Some e -> below p e = true).
Proof.
  intros Hp Hs0 Hs. induction fuel as [|fuel IH];
    intros left right Hlr Hfuel Hleft Hright; [lia|].
  cbn [binarySearch]. destruct (Nat.ltb_spec left right) as [Hlt|Hge].
  - cbv zeta.
    assert (Hmid : left <= left + Nat.div2 (right - left) < right).
    { pose proof (Nat.lt_div2 (right - left)) as Hd. revert Hd. generalize (Nat.div2 (right - left)). lia. }
    set (mid := left + Nat.div2 (right - left)) in *.
    destruct (nth_error s mid) as [e|] eqn:Emid.
    + assert (He : In e l0) by (eapply Hs0, nth_error_In; eassumption).
      destruct (below p e) eqn:Eb.
      * apply IH; [lia|lia|exact Hleft|].
        intros j e' Hj Ej.
        assert (He' : In e' l0) by (eapply Hs0, nth_error_In; eassumption).
        destruct (Nat.eq_dec j mid) as [->|Hne]; [congruence|].
        assert (Hee : le e e').
        { apply (StronglySorted_nth le s Hs mid j); [lia|assumption..]. }
        apply below_true_not_le; [assumption..|]. intros Hle.
        apply (below_true_not_le p e Hp He) in Eb. apply Eb.
        now apply (le_trans_on e e' p).
      * apply IH; [lia|lia| |exact Hright].
        intros j e' Hj Ej.
        assert (He' : In e' l0) by (eapply Hs0, nth_error_In; eassumption).
        destruct (Nat.eq_dec j mid) as [->|Hne]; [congruence|].
        assert (Hee : le e' e).
        { apply (StronglySorted_nth le s Hs j mid); [lia|assumption..]. }
        apply below_false_le; [assumption..|].
        apply (below_false_le p e Hp He) in Eb.
        now apply (le_trans_on e' e p).
    + apply nth_error_None in Emid. lia.
  - assert (left = right) by lia. subst right.
    split; [lia|]. split; [exact Hleft | exact Hright].
Qed.

Lemma binaryInsert_split (p : A) (s : list A) :
  In p l0 -> (forall y, In y s -> In y l0) ->
  StronglySorted le s ->
  exists s1 s2,
    s = s1 ++ s2 /\ binaryInsert comparefn s p = s1 ++ p :: s2
    /\ (forall e, In e s1 -> below p e = false)
    /\ (forall e, In e s2 -> below p e = true).
Proof.
  intros Hp Hs0 Hs. unfold binaryInsert. cbv zeta.
  destruct (binarySearch_place p s Hp Hs0 Hs (S (length s)) 0 (length s))
    as (Hlen & Hfirst & Hlast).
  - lia.
  - lia.
  - intros j e Hj. lia.
  - intros j e Hj Ej.
    assert (j < length s) by (apply nth_error_Some; congruence). lia.
  - set (place := binarySearch _ _ _ _ _ _) in *.
    exists (firstn place s), (skipn place s).
    split; [now rewrite firstn_skipn|]. split; [reflexivity|]. split.
    + intros e He. apply In_nth_error in He. destruct He as [j Ej].
      assert (j < length (firstn place s))
        by (apply nth_error_Some; congruence).
      rewrite length_firstn in *.
      apply (Hfirst j); [lia|]. rewrite nth_error_firstn in Ej.
      destruct (Nat.ltb_spec j place); [exact Ej|lia].
    + intros e He. apply In_nth_error in He. destruct He as [j Ej].
      rewrite nth_error_skipn in Ej. apply (Hlast (place + j)); [lia|exact Ej].
Qed.

Lemma binaryInsert_Permutation (p : A) (s : list A) :
  Permutation (binaryInsert comparefn s p) (s ++ [p]).
Proof.
  unfold binaryInsert. cbv zeta.
  set (place := binarySearch _ _ _ _ _ _).
  rewrite <- (firstn_skipn place s) at 3. rewrite <- app_assoc.
  apply Permutation_app_head.
  change (p :: skipn place s) with ([p] ++ skipn place s).
  apply Permutation_app_comm.
Qed.

Lemma binaryInsert_sorted (p : A) (s : list A) :
  In p l0 -> (forall y, In y s -> In y l0) ->
  StronglySorted le s ->
  StronglySorted le (binaryInsert comparefn s p).
Proof.
  intros Hp Hs0 Hs.
  destruct (binaryInsert_split p s Hp Hs0 Hs)
    as (s1 & s2 & -> & -> & Hs1 & Hs2).
  destruct (StronglySorted_app_elim _ _ _ Hs) as (H1 & H2 & Hcross).
  assert (H01 : forall e, In e s1 -> In e l0)
    by (intros e He; apply Hs0, in_or_app; now left).
  assert (H02 : forall e, In e s2 -> In e l0)
    by (intros e He; apply Hs0, in_or_app; now right).
  apply StronglySorted_app_intro; [exact H1| |].
  - constructor; [exact H2|]. apply List.Forall_forall. intros e He.
    apply below_true_le; auto.
  - intros a b Ha [<-|Hb].
    + apply below_false_le; auto.
    + now apply Hcross.
Qed.

Lemma filter_none (f : A -> bool) (l : list A) :
  (forall e, In e l -> f e = false) -> List.filter f l = [].
Proof.
  induction l as [|e l IH]; intros Hl; [reflexivity|]. cbn.
  rewrite (Hl e) by now left. apply IH. intros e' He'. apply Hl. now right.
Qed.

(** Of two items that tie with the same item neither is below the other. *)
Lemma ties_not_below (x a b : A) :
  In x l0 -> In a l0 -> In b l0 ->
  tiesWith comparefn x a = true -> tiesWith comparefn x b = true ->
  below a b = false.
Proof.
  intros Hx Ha Hb Ta Tb.
  apply (ties_le x a Hx Ha) in Ta. apply (ties_le x b Hx Hb) in Tb.
  apply below_false_le; [assumption..|].
  apply (le_trans_on b x a); tauto.
Qed.

Lemma binaryInsert_group (x p : A) (s : list A) :
  In x l0 -> In p l0 -> (forall y, In y s -> In y l0) ->
  StronglySorted le s ->
  List.filter (tiesWith comparefn x) (binaryInsert comparefn s p)
  = List.filter (tiesWith comparefn x) (s ++ [p]).
Proof.
  intros Hx Hp Hs0 Hs.
  destruct (binaryInsert_split p s Hp Hs0 Hs)
    as (s1 & s2 & -> & -> & Hs1 & Hs2).
  rewrite !List.filter_app. cbn [List.filter].
  destruct (tiesWith comparefn x p) eqn:Tp.
  - rewrite (filter_none _ s2); [now rewrite app_nil_r|].
    intros e He. destruct (tiesWith comparefn x e) eqn:Te; [|reflexivity].
    assert (He0 : In e l0) by (apply Hs0, in_or_app; now right).
    pose proof (Hs2 e He) as Hbelow.
    rewrite (ties_not_below x p e Hx Hp He0 Tp Te) in Hbelow.
    discriminate Hbelow.
  - now rewrite !app_nil_r.
Qed.

Lemma insertAll (rest run : list A) :
  (forall y, In y run -> In y l0) -> (forall y, In y rest -> In y l0) ->
  StronglySorted le run ->
  let out := fold_left (binaryInsert comparefn) rest run in
  StronglySorted le out
  /\ Permutation out (run ++ rest)
  /\ (forall x, In x l0 ->
        List.filter (tiesWith comparefn x) out
        = List.filter (tiesWith comparefn x) (run ++ rest)).
Proof.
  revert run. induction rest as [|p rest IH]; intros run Hrun Hrest Hs.
  - cbn. rewrite app_nil_r. auto.
  - cbn [fold_left].
    assert (Hp : In p l0) by (apply Hrest; now left).
    destruct (IH (binaryInsert comparefn run p)) as (Hsorted & Hperm & Hgroup).
    + intros y Hy.
      apply (Permutation_in _ (binaryInsert_Permutation p run)) in Hy.
      apply in_app_or in Hy. destruct Hy as [Hy|[<-|[]]]; auto.
    + intros y Hy. apply Hrest. now right.
    + now apply binaryInsert_sorted.
    + replace (run ++ p :: rest) with ((run ++ [p]) ++ rest)
        by (now rewrite <- app_assoc).
      split; [exact Hsorted|]. split.
      * rewrite Hperm. apply Permutation_app_tail, binaryInsert_Permutation.
      * intros x Hx. rewrite (Hgroup x Hx), !(List.filter_app _ _ rest).
        f_equal. now apply binaryInsert_group.
Qed.

(** The run. *)

Lemma In_firstn (n : nat) (l : list A) (y : A) :
  In y (firstn n l) -> In y l.
Proof.
  intros Hy. rewrite <- (firstn_skipn n l). apply in_or_app. now left.
Qed.

Lemma inRun_trans (d : bool) (a b c : A) :
  In a l0 -> In b l0 -> In c l0 ->
  inRun d a b -> inRun d b c -> inRun d a c.
Proof.
  unfold inRun. intros Ha Hb Hc. destruct d.
  - intros Hab Hbc. apply below_true_not_le; [assumption..|]. intros Hac.
    apply (below_true_not_le c b Hc Hb) in Hbc. apply Hbc.
    apply (le_trans_on b a c); [assumption..| |exact Hac].
    now apply below_true_le.
  - intros Hab Hbc. apply below_false_le; [assumption..|].
    apply (below_false_le b a Hb Ha) in Hab.
    apply (below_false_le c b Hc Hb) in Hbc.
    now apply (le_trans_on a b c).
Qed.

Lemma runTail_run (d : bool) (rest : list A) :
  forall previous, In previous l0 -> (forall y, In y rest -> In y l0) ->
  StronglySorted (inRun d)
    (previous :: firstn (runTail comparefn d previous rest) rest).
Proof.
  induction rest as [|current rest IH]; intros previous Hp Hrest.
  - cbn. constructor; constructor.
  - cbn [runTail].
    assert (Hc : In current l0) by (apply Hrest; now left).
    destruct (Bool.eqb _ d) eqn:E.
    + apply Bool.eqb_prop in E. cbn [firstn].
      specialize (IH current Hc (fun y Hy => Hrest y (or_intror Hy))).
      constructor; [exact IH|].
      destruct (StronglySorted_inv IH) as [_ Hall].
      constructor; [exact E|].
      rewrite List.Forall_forall in Hall |- *. intros y Hy.
      apply (inRun_trans d previous current y); auto.
      apply Hrest. right. eapply In_firstn; eassumption.
    + cbn. constructor; constructor.
Qed.

Lemma StronglySorted_rev (R : A -> A -> Prop) (l : list A) :
  StronglySorted R l -> StronglySorted (fun a b => R b a) (rev l).
Proof.
  induction 1 as [|x l Hs IH Hx]; [constructor|]. cbn.
  apply StronglySorted_app_intro; [exact IH|repeat constructor|].
  intros a b Ha [<-|[]]. rewrite List.Forall_forall in Hx.
  apply Hx. now apply in_rev.
Qed.

Lemma StronglySorted_weaken (R R' : A -> A -> Prop) (l : list A) :
  (forall a b, In a l -> In b l -> R a b -> R' a b) ->
  StronglySorted R l -> StronglySorted R' l.
Proof.
  intros HR Hs. induction Hs as [|x l Hs IH Hx]; [constructor|].
  constructor.
  - apply IH. intros a b Ha Hb. apply HR; now right.
  - rewrite List.Forall_forall in Hx |- *. intros y Hy.
    apply HR; [now left|now right|now apply Hx].
Qed.

Lemma descending_group (x : A) (l : list A) :
  In x l0 -> (forall y, In y l -> In y l0) ->
  StronglySorted (inRun true) l ->
  List.filter (tiesWith comparefn x) (rev l)
  = List.filter (tiesWith comparefn x) l.
Proof.
  intros Hx Hl Hs. rewrite List.filter_rev.
  assert (Hone : length (List.filter (tiesWith comparefn x) l) <= 1).
  { induction Hs as [|a l Hs IH Ha]; [cbn; lia|]. cbn [List.filter].
    specialize (IH (fun y Hy => Hl y (or_intror Hy))).
    destruct (tiesWith comparefn x a) eqn:Ta; [|exact IH].
    rewrite filter_none; [cbn; lia|].
    intros b Hb. destruct (tiesWith comparefn x b) eqn:Tb; [|reflexivity].
    rewrite List.Forall_forall in Ha. specialize (Ha b Hb). unfold inRun in Ha.
    assert (Ha0 : In a l0) by (apply Hl; now left).
    assert (Hb0 : In b l0) by (apply Hl; now right).
    pose proof (ties_not_below x b a Hx Hb0 Ha0 Tb Ta). congruence. }
  destruct (List.filter _ l) as [|a [|b l']]; cbn in *; [reflexivity..|lia].
Qed.

Lemma countAndMakeRun_run (l : list A) :
  (forall y, In y l -> In y l0) ->
  let run := fst (countAndMakeRun comparefn l) in
  let rest := snd (countAndMakeRun comparefn l) in
  StronglySorted le run
  /\ Permutation (run ++ rest) l
  /\ (forall x, In x l0 ->
        List.filter (tiesWith comparefn x) (run ++ rest)
        = List.filter (tiesWith comparefn x) l).
Proof.
  intros Hl. destruct l as [|first [|second rest]].
  - cbn. split; [constructor|]. split; [reflexivity|reflexivity].
  - cbn. split; [repeat constructor|]. split; reflexivity.
  - unfold countAndMakeRun. cbv zeta.
    set (d := below second first).
    set (k := runTail comparefn d second rest).
    change (2 + k) with (S (S k)). cbn [firstn skipn fst snd].
    assert (Hf : In first l0) by (apply Hl; now left).
    assert (Hsec : In second l0) by (apply Hl; right; now left).
    assert (Hrest : forall y, In y rest -> In y l0)
      by (intros y Hy; apply Hl; right; now right).
    assert (Hrun0 : forall y, In y (first :: second :: firstn k rest) ->
                              In y l0).
    { intros y [<-|[<-|Hy]]; auto. apply Hrest.
      eapply In_firstn; eassumption. }
    assert (Hrun : StronglySorted (inRun d)
                     (first :: second :: firstn k rest)).
    { pose proof (runTail_run d rest second Hsec Hrest) as Htail.
      fold k in Htail. constructor; [exact Htail|].
      destruct (StronglySorted_inv Htail) as [_ Hall].
      constructor; [reflexivity|].
      rewrite List.Forall_forall in Hall |- *. intros y Hy.
      apply (inRun_trans d first second y); auto; [|reflexivity].
      apply Hrun0. right. now right. }
    assert (Hwhole : first :: second :: rest
                     = (first :: second :: firstn k rest) ++ skipn k rest).
    { cbn. now rewrite firstn_skipn. }
    destruct d eqn:Ed.
    + split; [|split].
      * apply (StronglySorted_weaken (fun a b => inRun true b a)).
        -- intros a b Ha Hb Hab. apply below_true_le; auto;
             apply Hrun0; now apply in_rev.
        -- now apply StronglySorted_rev.
      * rewrite Hwhole. apply Permutation_app_tail. symmetry.
        apply Permutation_rev.
      * intros x Hx. rewrite Hwhole, !(List.filter_app _ _ (skipn k rest)).
        f_equal. now apply descending_group.
    + split; [|split].
      * apply (StronglySorted_weaken (inRun false)); [|exact Hrun].
        intros a b Ha Hb Hab. apply (below_false_le b a); auto.
      * now rewrite Hwhole.
      * intros x Hx. now rewrite Hwhole.
Qed.

(** The stable order is the only one. *)

Lemma stable_order_unique (out1 : list A) :
  forall out2,
  (forall y, In y out1 -> In y l0) ->
  StronglySorted le out1 -> StronglySorted le out2 ->
  Permutation out1 out2 ->
  (forall x, In x l0 ->
     List.filter (tiesWith comparefn x) out1
     = List.filter (tiesWith comparefn x) out2) ->
  out1 = out2.
Proof.
  induction out1 as [|h1 t1 IH]; intros out2 H1 Hs1 Hs2 Hperm Hgroup.
  - apply Permutation_nil in Hperm. now subst.
  - destruct out2 as [|h2 t2].
    + symmetry in Hperm. apply Permutation_nil in Hperm. discriminate.
    + assert (Hh1 : In h1 l0) by (apply H1; now left).
      assert (Hh2 : In h2 l0).
      { apply H1. apply (Permutation_in _ (Permutation_sym Hperm)).
        now left. }
      inversion Hs1 as [|? ? Hs1' Hall1]; subst.
      inversion Hs2 as [|? ? Hs2' Hall2]; subst.
      rewrite List.Forall_forall in Hall1, Hall2.
      assert (H12 : le h1 h2).
      { destruct (Permutation_in h2 (Permutation_sym Hperm)
                    (or_introl eq_refl)) as [<-|Hin].
        - now apply le_refl_on.
        - now apply Hall1. }
      assert (H21 : le h2 h1).
      { destruct (Permutation_in h1 Hperm (or_introl eq_refl)) as [<-|Hin].
        - now apply le_refl_on.
        - now apply Hall2. }
      assert (E : h1 = h2).
      { pose proof (Hgroup h1 Hh1) as Hg. cbn [List.filter] in Hg.
        rewrite (ties_refl h1 Hh1) in Hg.
        rewrite (proj2 (ties_le h1 h2 Hh1 Hh2) (conj H12 H21)) in Hg.
        now injection Hg. }
      subst h2. f_equal. apply IH.
      * intros y Hy. apply H1. now right.
      * exact Hs1'.
      * exact Hs2'.
      * eapply Permutation_cons_inv. exact Hperm.
      * intros x Hx. pose proof (Hgroup x Hx) as Hg. cbn [List.filter] in Hg.
        destruct (tiesWith comparefn x h1); [now injection Hg | exact Hg].
Qed.

End Engine.

(** On a comparator that is consistent and symmetric on the array, the
    engine's sort gives the order of [Array_sort]. *)
Lemma Array_sort_V8_agrees {A : Type} (comparefn : A -> A -> number)
    (l : list A) :
  consistentOn comparefn l -> symmetricOn comparefn l ->
  Array_sort_V8 comparefn l = Array_sort comparefn l.
Proof.
  intros Hcons Hsym. unfold Array_sort_V8.
  destruct (countAndMakeRun_run comparefn l Hcons Hsym l (fun y Hy => Hy))
    as (Hrun & Hperm & Hgroup).
  destruct (countAndMakeRun comparefn l) as [run rest]. cbn [fst snd] in *.
  assert (Hin : forall y, In y (run ++ rest) -> In y l)
    by (intros y; apply Permutation_in, Hperm).
  destruct (insertAll comparefn l Hcons Hsym rest run) as (Hs & Hp & Hg).
  { intros y Hy. apply Hin, in_or_app. now left. }
  { intros y Hy. apply Hin, in_or_app. now right. }
  { exact Hrun. }
  apply (stable_order_unique comparefn l Hsym).
  - intros y Hy. apply Hin. now apply (Permutation_in _ Hp).
  - exact Hs.
  - now apply Array_sort_sorted.
  - rewrite Hp, Hperm. symmetry. apply Array_sort_Permutation.
  - intros x Hx. rewrite (Hg x Hx), (Hgroup x Hx).
    symmetry. apply Array_sort_keeps_group.
    intros a b Ha Hb Ta Tb.
    assert (T : tiesWith comparefn a b = true).
    { apply (ties_le comparefn l Hsym a b Ha Hb).
      apply (ties_le comparefn l Hsym x a Hx Ha) in Ta.
      apply (ties_le comparefn l Hsym x b Hx Hb) in Tb.
      destruct Hcons as [_ Ht].
      split; [apply (Ht a x b) | apply (Ht b x a)]; tauto. }
    unfold tiesWith in T.
    now destruct (SortCompare (comparefn a b)).
Qed.

(** ** Identifiers *)

Lemma to_int_proper (n : Z) :
  Z.to_int n <> Decimal.Pos Decimal.Nil /\ Z.to_int n <> Decimal.Neg Decimal.Nil.
Proof.
  destruct n as [|p|p]; simpl; split; intros E; try discriminate;
    injection E as E; now apply DecimalPos.Unsigned.to_uint_nonnil in E.
Qed.

Lemma Number_toString_inj (n m : Z) :
  Number_toString n = Number_toString m -> n = m.
Proof.
  unfold Number_toString. intros E.
  apply DecimalZ.to_int_inj.
  destruct (to_int_proper n) as [Hn1 Hn2], (to_int_proper m) as [Hm1 Hm2].
  pose proof (NilZero.isi _ Hn1 Hn2) as In.
  pose proof (NilZero.isi _ Hm1 Hm2) as Im.
  rewrite E in In. congruence.
Qed.

(** ** Collection updates *)

Lemma lookup_map {A B : Type} (f : A -> B) (l : list A) (i : nat) :
  List.map f l !! i = option_map f (l !! i).
Proof.
  revert i. induction l as [|x l IH]; intros [|i]; simpl; auto.
Qed.

Section Properties.
Context {host : Host}.

Lemma matchesSearch_spec (searchTerm : string) (item : InventoryItem) :
  matchesSearch searchTerm item = true <->
  containsIgnoringCase (name item) searchTerm \/
  containsIgnoringCase (sku item) searchTerm \/
  containsIgnoringCase (category item) searchTerm.
Proof.
  unfold matchesSearch, containsIgnoringCase.
  rewrite !orb_true_iff, !includes_split. tauto.
Qed.

Lemma filter_filter_andb {A : Type} (f g : A -> bool) (l : list A) :
  List.filter g (List.filter f l) = List.filter (fun x => f x && g x) l.
Proof.
  induction l as [|x l IH]; simpl; [reflexivity|].
  destruct (f x); simpl; [destruct (g x)|]; now rewrite IH.
Qed.

Lemma filter_all {A : Type} (f : A -> bool) (l : list A) :
  (forall x, In x l -> f x = true) -> List.filter f l = l.
Proof.
  induction l as [|x l IH]; simpl; intros Hall; [reflexivity|].
  rewrite (Hall x) by now left. f_equal. apply IH. intros y Hy.
  apply Hall. now right.
Qed.

Lemma filter_steps {A : Type} (b1 b2 : bool) (f g : A -> bool) (l : list A) :
  (if b2 then List.filter g (if b1 then List.filter f l else l)
   else if b1 then List.filter f l else l)
  = List.filter (fun x => (negb b1 || f x) && (negb b2 || g x)) l.
Proof.
  destruct b1, b2; simpl.
  - apply filter_filter_andb.
  - rewrite <- (filter_filter_andb _ (fun _ => true)).
    symmetry. now apply filter_all.
  - reflexivity.
  - symmetry. now apply filter_all.
Qed.

(** C1: the query keeps exactly the items that pass the search filter
    (when the search term is not empty: the term occurs, ignoring case, in
    the name, the sku or the category) and the category filter (when the
    category is not empty: the item's category equals it), in their input
    order, and sorts only what was kept. *)
Theorem query_filters_then_sorts (items : list InventoryItem)
    (searchTerm selectedCategory : string) (cfg : SortConfig) :
  exists keep : InventoryItem -> bool,
    (forall item, keep item = true <-> Kept searchTerm selectedCategory item)
    /\ filteredAndSortedItems items searchTerm selectedCategory cfg
       = sortStep cfg (List.filter keep items).
Proof.
  exists (fun item =>
            (negb (truthy searchTerm) || matchesSearch searchTerm item)
            && (negb (truthy selectedCategory)
                || String.eqb (category item) selectedCategory)).
  split.
  - intros item. unfold Kept.
    rewrite andb_true_iff, !orb_true_iff, !negb_true_iff, !truthy_false,
      matchesSearch_spec, String.eqb_eq.
    destruct (string_dec searchTerm EmptyString) as [Es|Es];
      destruct (string_dec selectedCategory EmptyString) as [Ec|Ec];
      split; intros [H1 H2]; split; auto; tauto.
  - unfold filteredAndSortedItems, sortStep; cbv zeta.
    rewrite filter_steps. reflexivity.
Qed.

(** C2: the comparator subtracts two numbers, compares two strings with
    [localeCompare], negates the result when the direction is descending,
    and returns zero for a number against a string, which the sort reads as
    "equal" and which leaves such a pair where it was; it is a total
    function, so no input makes it fail. *)
Theorem comparator_by_type (k : ItemKey) (dir : Direction)
    (a b : InventoryItem) (x y : number) (s t : string) :
  compareValues ascending (VNum x) (VNum y) = (x - y)%float
  /\ compareValues ascending (VStr s) (VStr t) = localeCompare s t
  /\ (forall valA valB,
        compareValues descending valA valB
        = (- compareValues ascending valA valB)%float)
  /\ SortCompare (compareValues dir (VNum x) (VStr s)) = Eq
  /\ SortCompare (compareValues dir (VStr s) (VNum x)) = Eq
  /\ Array_sort (compareValues dir) [VNum x; VStr s] = [VNum x; VStr s]
  /\ Array_sort (compareValues dir) [VStr s; VNum x] = [VStr s; VNum x]
  /\ comparator k dir a b = compareValues dir (getField k a) (getField k b)
  /\ comparator Kquantity ascending a b = (quantity a - quantity b)%float
  /\ comparator Kprice ascending a b = (price a - price b)%float
  /\ comparator Kid ascending a b = localeCompare (id a) (id b)
  /\ comparator Kname ascending a b = localeCompare (name a) (name b)
  /\ comparator Kcategory ascending a b
     = localeCompare (category a) (category b)
  /\ comparator Ksku ascending a b = localeCompare (sku a) (sku b)
  /\ comparator KlastUpdated ascending a b
     = localeCompare (lastUpdated a) (lastUpdated b)
  /\ comparator k descending a b = (- comparator k ascending a b)%float.
Proof.
  assert (Hmixed : forall valA valB,
             (forall n m, valA = VNum n -> valB = VNum m -> False) ->
             (forall u v, valA = VStr u -> valB = VStr v -> False) ->
             SortCompare (compareValues dir valA valB) = Eq).
  { intros valA valB Hn Hs. unfold compareValues.
    destruct valA, valB;
      try (exfalso; eapply Hn; reflexivity);
      try (exfalso; eapply Hs; reflexivity);
      destruct dir; reflexivity. }
  assert (E1 : SortCompare (compareValues dir (VNum x) (VStr s)) = Eq)
    by (apply Hmixed; intros; discriminate).
  assert (E2 : SortCompare (compareValues dir (VStr s) (VNum x)) = Eq)
    by (apply Hmixed; intros; discriminate).
  repeat split; try reflexivity; try assumption.
  - cbn [Array_sort fold_right insert]. now rewrite E1.
  - cbn [Array_sort fold_right insert]. now rewrite E2.
Qed.

(** C3 (as amended): the sort of the query is stable when the comparator
    is consistent on the filtered items. The sorted result then holds the
    same items, in the comparator's order; two items that the comparator
    finds equal, the first placed before the second among the filtered
    items, come out of the sort in that order; for any group of items
    that the comparator finds equal to one another, the members of the
    group appear in the sorted output in the order they had before; and
    this result is the one the engine's sort produces, for a comparator
    that is also symmetric, on fewer than 64 items, where the engine
    sorts by one run and binary insertion. *)
Theorem sort_is_stable (items : list InventoryItem)
    (searchTerm selectedCategory : string) (cfg : SortConfig) :
  let unsorted :=
    filteredAndSortedItems items searchTerm selectedCategory
      (mkSortConfig None (direction cfg)) in
  let sorted :=
    filteredAndSortedItems items searchTerm selectedCategory cfg in
  (forall k, key cfg = Some k ->
             consistentOn (comparator k (direction cfg)) unsorted) ->
  Permutation sorted unsorted
  /\ (forall k, key cfg = Some k ->
        StronglySorted (notAfter (comparator k (direction cfg))) sorted)
  /\ (forall a b,
        occursBefore a b unsorted ->
        (forall k, key cfg = Some k ->
                   SortCompare (comparator k (direction cfg) a b) = Eq) ->
        occursBefore a b sorted)
  /\ (forall group : InventoryItem -> bool,
        (forall k a b,
            key cfg = Some k -> In a unsorted -> In b unsorted ->
            group a = true -> group b = true ->
            SortCompare (comparator k (direction cfg) a b) = Eq) ->
        List.filter group sorted = List.filter group unsorted)
  /\ (forall k, key cfg = Some k ->
        symmetricOn (comparator k (direction cfg)) unsorted ->
        (length unsorted < 64)%nat ->
        Array_sort_V8 (comparator k (direction cfg)) unsorted = sorted).
Proof.
  intros unsorted sorted. subst unsorted sorted.
  unfold filteredAndSortedItems. cbv zeta. cbn [key].
  destruct (key cfg) as [k|]; intros Hcons;
    (split; [|split; [|split; [|split]]]).
  - apply Array_sort_Permutation.
  - intros k' Ek. injection Ek as <-.
    apply Array_sort_sorted. now apply Hcons.
  - intros a b Hab Heq. apply Array_sort_keeps_order; [exact Hab|].
    rewrite (Heq k eq_refl). discriminate.
  - intros group Hgroup. apply Array_sort_keeps_group.
    intros a b. now apply Hgroup.
  - intros k' Ek Hsym _. injection Ek as <-.
    apply Array_sort_V8_agrees; [now apply Hcons | exact Hsym].
  - reflexivity.
  - discriminate.
  - intros a b Hab _. exact Hab.
  - reflexivity.
  - discriminate.
Qed.

(** ** Pagination *)

Lemma Array_slice_forward {A : Type} (l : list A) (start final : Z) :
  (0 <= start <= final)%Z ->
  Array_slice l start final
  = firstn (Z.to_nat (final - start)) (skipn (Z.to_nat start) l).
Proof.
  intros Hrange. unfold Array_slice.
  destruct (Z.ltb_spec start 0) as [?|_]; [lia|].
  destruct (Z.ltb_spec final 0) as [?|_]; [lia|].
  destruct (Z_lt_le_dec start (Z.of_nat (length l))) as [Hin|Hout].
  - rewrite (Z.min_l start) by lia.
    destruct (Z_le_gt_dec final (Z.of_nat (length l))) as [Hf|Hf].
    + now rewrite (Z.min_l final) by lia.
    + rewrite (Z.min_r final) by lia.
      rewrite !firstn_all2; try reflexivity; rewrite length_skipn; lia.
  - rewrite !(skipn_all2 (n := Z.to_nat _)) by lia.
    now rewrite !firstn_nil.
Qed.

(** C4: for a page number counted from 1, the page holds the items at the
    indices from [(page-1)*pageSize] up to, not including, [page*pageSize],
    as far as the list goes; when [page*pageSize] reaches the length of the
    list the page has [max 0 (length - (page-1)*pageSize)] items, and a
    page past the end is empty. The result is always a list: there is no
    failure and no index is taken from the end of the list. *)
Theorem paginate_range (items : list InventoryItem) (page : Z)
    (pageSize : ItemsPerPage) :
  (1 <= page)%Z ->
  let start := ((page - 1) * perPage pageSize)%Z in
  let len := Z.of_nat (length items) in
  let result := paginatedItems items page pageSize in
  result
  = firstn (Z.to_nat (perPage pageSize)) (skipn (Z.to_nat start) items)
  /\ (forall i : nat,
        result !! i
        = if (Z.of_nat i <? perPage pageSize)%Z
          then items !! (Z.to_nat start + i)%nat
          else None)
  /\ Z.of_nat (length result)
     = Z.max 0 (Z.min (perPage pageSize) (len - start))
  /\ ((page * perPage pageSize >= len)%Z ->
      Z.of_nat (length result) = Z.max 0 (len - start))
  /\ ((start >= len)%Z -> result = []).
Proof.
  intros Hpage start len result.
  assert (Hsize : (0 < perPage pageSize)%Z) by (destruct pageSize; simpl; lia).
  assert (Hstart : (0 <= start)%Z) by (subst start; nia).
  assert (Eq1 : result
    = firstn (Z.to_nat (perPage pageSize)) (skipn (Z.to_nat start) items)).
  { subst result. unfold paginatedItems; cbv zeta. fold start.
    rewrite Array_slice_forward by lia. do 2 f_equal. lia. }
  assert (Elen : Z.of_nat (length result)
                 = Z.max 0 (Z.min (perPage pageSize) (len - start))).
  { rewrite Eq1, length_firstn, length_skipn. subst len. lia. }
  split; [exact Eq1|]. split; [|split; [exact Elen|split]].
  - intros i. rewrite Eq1.
    destruct (Z.ltb_spec (Z.of_nat i) (perPage pageSize)) as [Hi|Hi].
    + rewrite lookup_take_lt by lia. apply lookup_drop.
    + apply lookup_take_ge. lia.
  - intros Hlast. rewrite Elen.
    assert (page * perPage pageSize = start + perPage pageSize)%Z
      by (subst start; lia).
    lia.
  - intros Hpast. apply length_zero_iff_nil. lia.
Qed.

(** ** Create, update, delete *)

Lemma updateItem_absent (itemData : InventoryItem) (newDate : Z)
    (items : list InventoryItem) :
  ~ In (id itemData) (List.map id items) ->
  updateItem itemData newDate items = items.
Proof.
  unfold updateItem. induction items as [|x items IH]; simpl; intros Habs.
  - reflexivity.
  - destruct (String.eqb_spec (id x) (id itemData)) as [E|_].
    + destruct Habs. now left.
    + f_equal. apply IH. intros Hin. apply Habs. now right.
Qed.

Lemma deleteItem_absent (itemId : string) (items : list InventoryItem) :
  ~ In itemId (List.map id items) -> deleteItem itemId items = items.
Proof.
  intros Habs. apply filter_all. intros x Hx.
  destruct (String.eqb_spec (id x) itemId) as [E|_]; [|reflexivity].
  destruct Habs. rewrite <- E. now apply in_map.
Qed.

Lemma deleteItem_removes (itemId : string) (items : list InventoryItem) :
  ~ In itemId (List.map id (deleteItem itemId items)).
Proof.
  unfold deleteItem. rewrite in_map_iff. intros [x [E Hx]].
  apply filter_In in Hx as [_ Hx]. subst itemId.
  now rewrite String.eqb_refl in Hx.
Qed.

Lemma inventoryItems_remove (itemId itemName : string) (st : App) :
  inventoryItems (confirmDeleteItem (handleDeleteRequest itemId itemName st))
  = deleteItem itemId (inventoryItems st).
Proof. reflexivity. Qed.

(** C5 (as amended): for every payload and every collection, the created
    item is put in front of the collection, whose items stay as they
    were, in order; its fields are the payload's; its id is the decimal
    string of the [Date.now()] reading, so it differs from every existing
    id exactly when no item carries that string already, and an existing
    id minted at an instant collides exactly when the instant is the same
    millisecond; its [lastUpdated] is the ISO string of the [new Date()]
    reading, which a clock that does not run backwards takes at or after
    the time of the call. The call starts at [callTime]; [wait1] and
    [wait2] are the milliseconds that pass before the two readings. *)
Theorem createItem_prepends_fresh_item (itemData : NewInventoryItem)
    (callTime : Z) (wait1 wait2 : N) (st : App) :
  let dateNow := (callTime + Z.of_N wait1)%Z in
  let newDate := (dateNow + Z.of_N wait2)%Z in
  let newItem := makeNewItem itemData dateNow newDate in
  let st' := handleItemFormSubmit (inl itemData) dateNow newDate st in
  inventoryItems st' = newItem :: inventoryItems st
  /\ inventoryItems st'
     = createItem itemData dateNow newDate (inventoryItems st)
  /\ id newItem = Number_toString dateNow
  /\ (~ In (id newItem) (List.map id (inventoryItems st)) <->
      forall item, In item (inventoryItems st) ->
                   id item <> Number_toString dateNow)
  /\ (forall item t, In item (inventoryItems st) ->
        id item = Number_toString t ->
        (id item = id newItem <-> t = dateNow))
  /\ lastUpdated newItem = toISOString newDate
  /\ (callTime <= dateNow <= newDate)%Z
  /\ name newItem = new_name itemData
  /\ quantity newItem = new_quantity itemData
  /\ price newItem = new_price itemData
  /\ category newItem = new_category itemData
  /\ sku newItem = new_sku itemData
  /\ (forall i, inventoryItems st' !! S i = inventoryItems st !! i).
Proof.
  intros dateNow newDate newItem st'.
  split; [reflexivity|]. split; [reflexivity|]. split; [reflexivity|].
  split; [|split; [|split; [reflexivity|split; [lia|]]]].
  - cbn [id newItem makeNewItem]. rewrite in_map_iff. split.
    + intros Hfresh item Hitem E. apply Hfresh. now exists item.
    + intros Hne [item [E Hitem]]. now apply (Hne item).
  - intros item t _ Et. cbn [id newItem makeNewItem]. rewrite Et. split.
    + apply Number_toString_inj.
    + now intros ->.
  - repeat apply conj; reflexivity.
Qed.

(** C8: updating with an id that no item has, and deleting such an id,
    leave the collection as it was; both are total functions, so neither
    can fail. Deleting the same id a second time changes nothing more. *)
Theorem absent_id_is_noop (st : App) (itemData : InventoryItem)
    (dateNow newDate : Z) (itemId itemName : string) :
  let items := inventoryItems st in
  let remove := fun st =>
    confirmDeleteItem (handleDeleteRequest itemId itemName st) in
  (~ In (id itemData) (List.map id items) ->
     updateItem itemData newDate items = items
     /\ inventoryItems
          (handleItemFormSubmit (inr itemData) dateNow newDate st) = items)
  /\ (~ In itemId (List.map id items) ->
        deleteItem itemId items = items
        /\ inventoryItems (remove st) = items)
  /\ deleteItem itemId (deleteItem itemId items) = deleteItem itemId items
  /\ inventoryItems (remove (remove st)) = inventoryItems (remove st).
Proof.
  intros items remove.
  assert (Htwice : deleteItem itemId (deleteItem itemId items)
                   = deleteItem itemId items)
    by apply deleteItem_absent, deleteItem_removes.
  split; [|split; [|split]].
  - intros Habs. split; apply (updateItem_absent _ _ _ Habs).
  - intros Habs. subst remove. cbv beta. rewrite inventoryItems_remove.
    split; now apply deleteItem_absent.
  - exact Htwice.
  - subst remove. cbv beta. now rewrite !inventoryItems_remove.
Qed.

(** C9: when the id is present, updating replaces each item with that id
    by the input with [lastUpdated] set to the current time and every other
    field (the id included) as given; the items with another id keep their
    value and their place; a query without filters then returns the
    updated collection, reordered at most, with the updated item in it. *)
Theorem updateItem_replaces_matching (st : App) (itemData : InventoryItem)
    (dateNow newDate : Z) :
  let items := inventoryItems st in
  In (id itemData) (List.map id items) ->
  let updated := withLastUpdated itemData (toISOString newDate) in
  let items' :=
    inventoryItems (handleItemFormSubmit (inr itemData) dateNow newDate st) in
  items' = updateItem itemData newDate items
  /\ length items' = length items
  /\ (forall i item,
        items !! i = Some item ->
        items' !! i
        = Some (if String.eqb (id item) (id itemData) then updated else item))
  /\ id updated = id itemData
  /\ name updated = name itemData
  /\ quantity updated = quantity itemData
  /\ price updated = price itemData
  /\ category updated = category itemData
  /\ sku updated = sku itemData
  /\ lastUpdated updated = toISOString newDate
  /\ In updated items'
  /\ (forall cfg,
        Permutation
          (filteredAndSortedItems items' EmptyString EmptyString cfg) items'
        /\ In updated
             (filteredAndSortedItems items' EmptyString EmptyString cfg)).
Proof.
  intros items Hpresent updated items'.
  assert (E : items' = updateItem itemData newDate items) by reflexivity.
  assert (Hin : In updated items').
  { rewrite E. apply in_map_iff in Hpresent as [item [Eid Hitem]].
    unfold updateItem. apply in_map_iff. exists item. split; [|exact Hitem].
    rewrite Eid, String.eqb_refl. reflexivity. }
  assert (Hquery : forall cfg,
    Permutation
      (filteredAndSortedItems items' EmptyString EmptyString cfg) items').
  { intros cfg. unfold filteredAndSortedItems. cbn [truthy String.eqb negb].
    destruct (key cfg); [apply Array_sort_Permutation | reflexivity]. }
  repeat apply conj; try reflexivity.
  - rewrite E. unfold updateItem. apply length_map.
  - intros i item Hi. rewrite E. unfold updateItem.
    rewrite lookup_map, Hi. reflexivity.
  - exact Hin.
  - intros cfg. split; [apply Hquery|].
    eapply Permutation_in; [symmetry; apply Hquery | exact Hin].
Qed.

(** ** Dashboard *)

Lemma Array_reduce_snoc {A B : Type} (f : B -> A -> B) (init : B)
    (l : list A) (x : A) :
  Array_reduce f init (l ++ [x]) = f (Array_reduce f init l) x.
Proof. unfold Array_reduce. now rewrite fold_left_app. Qed.

(** C6: the four dashboard values are computed from the whole collection
    and do not change with the search term, the category, the sort or the
    page. The total quantity is the running sum of the quantities, the SKU
    count is the number of rows (two rows with one SKU count twice), the
    low-stock count is the number of items with quantity at most 10. For
    the quantities 5, 150, 8, 30, 15, 60, 12 the total is 280 and two items
    are low on stock. *)
Theorem dashboard_aggregates (st : App) (item : InventoryItem) :
  let items := inventoryItems st in
  (forall term k c p n,
      dashboard (setSearchTerm term st) = dashboard st
      /\ dashboard (requestSort k st) = dashboard st
      /\ dashboard (handleCategoryChange c st) = dashboard st
      /\ dashboard (setCurrentPage p st) = dashboard st
      /\ dashboard (onItemsPerPageChange n st) = dashboard st)
  /\ cardTotalItems (dashboard st) = totalItemsInStock items
  /\ cardUniqueSKUs (dashboard st) = uniqueProductSKUs items
  /\ cardLowStock (dashboard st) = lowStockItemsCount items
  /\ totalItemsInStock [] = 0%float
  /\ totalItemsInStock (items ++ [item])
     = (totalItemsInStock items + quantity item)%float
  /\ uniqueProductSKUs items = length (List.map sku items)
  /\ uniqueProductSKUs (item :: item :: items)
     = S (S (uniqueProductSKUs items))
  /\ lowStockItemsCount [] = 0
  /\ lowStockItemsCount (item :: items)
     = ((if (quantity item <=? 10)%float then 1 else 0)
        + lowStockItemsCount items)%nat
  /\ (List.map quantity items = [5; 150; 8; 30; 15; 60; 12]%float ->
      totalItemsInStock items = 280%float
      /\ lowStockItemsCount items = 2).
Proof.
  intros items.
  repeat apply conj; try reflexivity.
  - intros term k c p n. repeat apply conj; reflexivity.
  - apply (Array_reduce_snoc (fun sum it => (sum + quantity it)%float)).
  - unfold uniqueProductSKUs. now rewrite length_map.
  - unfold lowStockItemsCount, LOW_STOCK_THRESHOLD. cbn [List.filter].
    now destruct (quantity item <=? 10)%float.
  - intros H.
    destruct items as [|i1 [|i2 [|i3 [|i4 [|i5 [|i6 [|i7 [|i8 rest]]]]]]]];
      try discriminate.
    cbn [List.map] in H. injection H as E1 E2 E3 E4 E5 E6 E7.
    unfold totalItemsInStock, Array_reduce. cbn [fold_left].
    rewrite E1, E2, E3, E4, E5, E6, E7. split; [reflexivity|].
    unfold lowStockItemsCount, LOW_STOCK_THRESHOLD. cbn [List.filter].
    rewrite E1, E2, E3, E4, E5, E6, E7. reflexivity.
Qed.

(** C7 (as amended): the total inventory value is the binary64 sum of the
    binary64 products [quantity * price], accumulated from 0 in the order
    of the collection; nothing in the computation rounds it to two
    decimal places. *)
Theorem totalInventoryValue_accumulates (items : list InventoryItem)
    (item : InventoryItem) :
  totalInventoryValue [] = 0%float
  /\ totalInventoryValue (items ++ [item])
     = (totalInventoryValue items + quantity item * price item)%float
  /\ totalInventoryValue [item] = (0 + quantity item * price item)%float.
Proof.
  repeat apply conj; try reflexivity.
  apply (Array_reduce_snoc
           (fun sum it => (sum + quantity it * price it)%float)).
Qed.

(** ** Persistence *)

Lemma saveEffect_writes (prev : App) (w : World) :
  itemsRef (app w) = S (itemsRef prev) -> isLoading (app w) = false ->
  saveEffect prev w
  = localStorage_setItem "inventoryItems"
      (JSON_stringify (inventoryItems (app w))) w.
Proof.
  intros Eref Eload. unfold saveEffect. cbv zeta.
  rewrite Eref, Eload.
  replace (Nat.eqb (itemsRef prev) (S (itemsRef prev))) with false
    by (symmetry; apply Nat.eqb_neq; lia).
  reflexivity.
Qed.

Lemma saveEffect_skips (prev : App) (w : World) :
  itemsRef (app w) = itemsRef prev -> isLoading (app w) = isLoading prev ->
  saveEffect prev w = w.
Proof.
  intros Eref Eload. unfold saveEffect. cbv zeta.
  now rewrite Eref, Eload, Nat.eqb_refl, eqb_reflx.
Qed.

Lemma saveEffect_loading (prev : App) (w : World) :
  isLoading (app w) = true -> saveEffect prev w = w.
Proof.
  intros Eload. unfold saveEffect. cbv zeta. rewrite Eload.
  now destruct (_ && _).
Qed.

Lemma setItem_log (k v : string) (w : World) :
  setItemLog (localStorage_setItem k v w) = (k, v) :: setItemLog w
  /\ localStorage (localStorage_setItem k v w) !! k = Some v
  /\ app (localStorage_setItem k v w) = app w.
Proof.
  repeat apply conj; try reflexivity. apply lookup_insert_eq.
Qed.

Lemma isLoading_handle (t0 : Z) (e : Event) (storage : gmap string string)
    (st : App) :
  e <> LoadTimeout -> isLoading (handle t0 e storage st) = isLoading st.
Proof.
  destruct e; intros Hne; try reflexivity; try congruence.
  - now destruct itemData.
  - cbn. now destruct (itemToDelete st) as [[? ?]|].
Qed.

Lemma itemsRef_handle (t0 : Z) (e : Event) (storage : gmap string string)
    (st : App) :
  e <> LoadTimeout ->
  itemsRef (handle t0 e storage st)
  = if mutates st e then S (itemsRef st) else itemsRef st.
Proof.
  destruct e; intros Hne; try reflexivity; try congruence.
  - now destruct itemData.
  - cbn. now destruct (itemToDelete st) as [[? ?]|].
Qed.

Lemma step_submit (t0 : Z) (itemData : NewInventoryItem + InventoryItem)
    (dateNow newDate : Z) (w : World) :
  isLoading (app w) = false ->
  isLoading (app (step t0 (ItemFormSubmit itemData dateNow newDate) w)) = false
  /\ length (setItemLog (step t0 (ItemFormSubmit itemData dateNow newDate) w))
     = S (length (setItemLog w)).
Proof.
  intros Eload. unfold step. cbv zeta.
  rewrite saveEffect_writes.
  - split; [|reflexivity]. cbn [app localStorage_setItem].
    now rewrite isLoading_handle.
  - cbn [app]. now rewrite itemsRef_handle.
  - cbn [app]. now rewrite isLoading_handle.
Qed.

(** C10 (as amended): once loading is over, every mutating operation
    (add, update, confirmed delete) is followed at once by one write of the
    serialised full collection under the key ["inventoryItems"], one write
    per operation; the end of the initial load writes the loaded collection
    once as well; while the load is pending nothing is written; an event
    that is neither writes nothing. *)
Theorem save_after_load_and_mutation (t0 : Z) (e : Event) (w : World) :
  let w' := step t0 e w in
  let written := JSON_stringify (inventoryItems (app w')) in
  (isLoading (app w) = false -> mutates (app w) e = true ->
     setItemLog w' = ("inventoryItems", written) :: setItemLog w
     /\ localStorage w' !! "inventoryItems" = Some written)
  /\ (e = LoadTimeout ->
        setItemLog w' = ("inventoryItems", written) :: setItemLog w
        /\ localStorage w' !! "inventoryItems" = Some written)
  /\ (isLoading (app w) = true -> e <> LoadTimeout ->
        setItemLog w' = setItemLog w /\ localStorage w' = localStorage w)
  /\ (mutates (app w) e = false -> e <> LoadTimeout ->
        setItemLog w' = setItemLog w /\ localStorage w' = localStorage w)
  /\ (forall submits : list ((NewInventoryItem + InventoryItem) * Z * Z),
        isLoading (app w) = false ->
        length (setItemLog (run t0 (List.map submitEvent submits) w))
        = (length submits + length (setItemLog w))%nat).
Proof.
  intros w' written. subst w' written. unfold step. cbv zeta.
  repeat apply conj.
  - intros Eload Hmut.
    assert (Hne : e <> LoadTimeout) by (intros ->; discriminate).
    rewrite saveEffect_writes.
    + split; [reflexivity | apply lookup_insert_eq].
    + cbn [app]. now rewrite itemsRef_handle, Hmut.
    + cbn [app]. now rewrite isLoading_handle.
  - intros ->. rewrite saveEffect_writes by reflexivity.
    split; [reflexivity | apply lookup_insert_eq].
  - intros Eload Hne. rewrite saveEffect_loading; [now split|].
    cbn [app]. now rewrite isLoading_handle.
  - intros Hmut Hne. rewrite saveEffect_skips; [now split| |].
    + cbn [app]. now rewrite itemsRef_handle, Hmut.
    + cbn [app]. now rewrite isLoading_handle.
  - intros submits. revert w.
    induction submits as [|[[d t1] t2] submits IH]; intros w Eload;
      [reflexivity|].
    cbn [List.map run fold_left submitEvent].
    destruct (step_submit t0 d t1 t2 w Eload) as [Eload' Elen].
    unfold run in IH. rewrite IH by exact Eload'.
    rewrite Elen. cbn [length]. lia.
Qed.

End Properties.

(** * The properties at concrete inputs *)

(** The query on the initial data: searching for "mouse" finds the
    wireless mouse alone, whatever the case of the term. *)
Example search_mouse :
  List.map id
    (filteredAndSortedItems (H := exampleHost)
       (initialItems (H := exampleHost) 0) "MOUSE" ""
       (mkSortConfig (Some KlastUpdated) descending))
  = ["2"].
Proof. reflexivity. Qed.

Example accessories_by_name :
  List.map name
    (filteredAndSortedItems (H := exampleHost)
       (initialItems (H := exampleHost) 0) "" "Accessories"
       (mkSortConfig (Some Kname) ascending))
  = ["Mechanical Keyboard"; "USB-C Hub"; "Wireless Mouse"].
Proof. reflexivity. Qed.

Example by_quantity_descending :
  List.map id
    (filteredAndSortedItems (H := exampleHost)
       (initialItems (H := exampleHost) 0) "" ""
       (mkSortConfig (Some Kquantity) descending))
  = ["2"; "6"; "4"; "5"; "7"; "3"; "1"].
Proof. reflexivity. Qed.

(** [slice] counts a negative argument from the end of the array, which is
    why the page number has to be at least 1. *)
Example slice_from_the_end :
  Array_slice [1; 2; 3; 4; 5] (-2) (-1) = [4]
  /\ List.map id (paginatedItems manyItems (-1) PerPage10) = ["1"; "2"].
Proof. split; reflexivity. Qed.

(** Sorting the office items by category moves the kitchen item to the
    front and keeps the two office items, pen before ink, in their order. *)
Lemma sort_is_stable_witness :
  occursBefore
    (sampleItem "1" "Pen" 5 1.5 "Office")
    (sampleItem "3" "Ink" 5 9 "Office")
    (filteredAndSortedItems (H := exampleHost) officeItems "" ""
       (mkSortConfig (Some Kcategory) ascending))
  /\ List.filter (fun item => String.eqb (category item) "Office")
       (filteredAndSortedItems (H := exampleHost) officeItems "" ""
          (mkSortConfig (Some Kcategory) ascending))
     = List.filter (fun item => String.eqb (category item) "Office")
         (filteredAndSortedItems (H := exampleHost) officeItems "" ""
            (mkSortConfig None ascending))
  /\ Array_sort_V8 (comparator (H := exampleHost) Kcategory ascending)
       (filteredAndSortedItems (H := exampleHost) officeItems "" ""
          (mkSortConfig None ascending))
     = filteredAndSortedItems (H := exampleHost) officeItems "" ""
         (mkSortConfig (Some Kcategory) ascending).
Proof.
  destruct (sort_is_stable (host := exampleHost) officeItems "" ""
              (mkSortConfig (Some Kcategory) ascending))
    as (_ & _ & Hpair & Hgroup & Hengine).
  - intros k Hk. injection Hk as <-. consistent_by_cases.
  - split; [|split].
    + apply Hpair.
      * now exists [], [sampleItem "2" "Mug" 3 4 "Kitchen"], [].
      * intros k Hk. injection Hk as <-. reflexivity.
    + apply Hgroup. intros k a b Hk Ha Hb Ga Gb. injection Hk as <-.
      apply String.eqb_eq in Ga, Gb.
      unfold comparator, getField. rewrite Ga, Gb. reflexivity.
    + apply (Hengine Kcategory eq_refl).
      * symmetric_by_cases.
      * vm_compute. lia.
Defined.

(** C3, counterexample: with a NaN quantity the sort does not keep equal
    items in their order. In the rows with quantities 2, 1, NaN, 1 the
    comparator's answer for the shim (NaN) against the clip (1) is NaN,
    which the sort reads as "equal", and the shim stands before the clip.
    The engine finds the run 2, 1, reverses it, leaves the shim in third
    place and puts the clip second: the clip ends before the shim. The
    comparator is not consistent on these rows: the nut (2) is not after
    the shim and the shim is not after the bolt (1), but the nut is after
    the bolt. Straight insertion gives another order, which the language
    admits as well for such a comparator. *)
Lemma sort_with_NaN_moves_equal_items :
  filteredAndSortedItems (H := exampleHost) nanItems "" ""
    (mkSortConfig None ascending) = nanItems
  /\ occursBefore
       (sampleItem "102" "Shim" nan 0.5 "Hardware")
       (sampleItem "103" "Clip" 1 0.5 "Hardware") nanItems
  /\ SortCompare
       (comparator (H := exampleHost) Kquantity ascending
          (sampleItem "102" "Shim" nan 0.5 "Hardware")
          (sampleItem "103" "Clip" 1 0.5 "Hardware")) = Eq
  /\ List.map id
       (Array_sort_V8 (comparator (H := exampleHost) Kquantity ascending)
          nanItems)
     = ["101"; "103"; "100"; "102"]
  /\ occursBefore
       (sampleItem "103" "Clip" 1 0.5 "Hardware")
       (sampleItem "102" "Shim" nan 0.5 "Hardware")
       (Array_sort_V8 (comparator (H := exampleHost) Kquantity ascending)
          nanItems)
  /\ ~ occursBefore
         (sampleItem "102" "Shim" nan 0.5 "Hardware")
         (sampleItem "103" "Clip" 1 0.5 "Hardware")
         (Array_sort_V8 (comparator (H := exampleHost) Kquantity ascending)
            nanItems)
  /\ ~ consistentOn (comparator (H := exampleHost) Kquantity ascending)
         nanItems
  /\ List.map id
       (filteredAndSortedItems (H := exampleHost) nanItems "" ""
          (mkSortConfig (Some Kquantity) ascending))
     = ["101"; "100"; "102"; "103"].
Proof.
  split; [reflexivity|]. split.
  { now exists [sampleItem "100" "Nut" 2 0.5 "Hardware";
                sampleItem "101" "Bolt" 1 0.5 "Hardware"], [], []. }
  split; [reflexivity|]. split; [reflexivity|]. split.
  { now exists [sampleItem "101" "Bolt" 1 0.5 "Hardware"],
               [sampleItem "100" "Nut" 2 0.5 "Hardware"], []. }
  split.
  - intros (l1 & l2 & l3 & E).
    apply (f_equal (List.map id)) in E.
    rewrite List.map_app in E. cbn [List.map] in E.
    rewrite List.map_app in E. cbn [List.map] in E.
    change (List.map id
              (Array_sort_V8
                 (comparator (H := exampleHost) Kquantity ascending)
                 nanItems))
      with ["101"; "103"; "100"; "102"]%string in E.
    change (id (sampleItem "102" "Shim" nan 0.5 "Hardware"))
      with "102"%string in E.
    change (id (sampleItem "103" "Clip" 1 0.5 "Hardware"))
      with "103"%string in E.
    revert E.
    generalize (List.map id l1), (List.map id l2), (List.map id l3).
    clear. intros l1 l2 l3 E.
    repeat (destruct l1 as [|? l1];
            [cbn in E|cbn in E; injection E as _ E];
            [try discriminate E|]).
    all: try (injection E as E; destruct l2; discriminate E).
    destruct l1; discriminate E.
  - split; [|reflexivity]. intros [_ Htrans].
    assert (H : notAfter (comparator (H := exampleHost) Kquantity ascending)
                  (sampleItem "100" "Nut" 2 0.5 "Hardware")
                  (sampleItem "101" "Bolt" 1 0.5 "Hardware")).
    { apply (Htrans _ (sampleItem "102" "Shim" nan 0.5 "Hardware"));
        try (vm_compute; tauto); unfold notAfter; vm_compute; discriminate. }
    apply H. reflexivity.
Defined.

(** The second page of ten out of twelve rows holds the last two. *)
Lemma paginate_range_witness :
  (1 <= 2)%Z
  /\ paginatedItems manyItems 2 PerPage10 = firstn 10 (skipn 10 manyItems)
  /\ Z.of_nat (length (paginatedItems manyItems 2 PerPage10)) = 2%Z
  /\ paginatedItems manyItems 3 PerPage10 = [].
Proof.
  split; [lia|].
  destruct (paginate_range manyItems 2 PerPage10 ltac:(lia))
    as (Hrange & _ & _ & Hlast & _).
  destruct (paginate_range manyItems 3 PerPage10 ltac:(lia))
    as (_ & _ & _ & _ & Hpast).
  split; [exact Hrange|]. split.
  - apply Hlast. vm_compute. discriminate.
  - apply Hpast. vm_compute. discriminate.
Defined.

(** Adding to the seven initial items at a later millisecond. *)
Lemma createItem_prepends_fresh_item_witness :
  inventoryItems
    (handleItemFormSubmit (H := exampleHost) (inl samplePayload)
       1700000000000 1700000000001 loadedApp)
  = makeNewItem (H := exampleHost) samplePayload 1700000000000 1700000000001
    :: inventoryItems loadedApp
  /\ ~ In (id (makeNewItem (H := exampleHost) samplePayload
                 1700000000000 1700000000001))
          (List.map id (inventoryItems loadedApp)).
Proof.
  destruct (createItem_prepends_fresh_item (host := exampleHost)
              samplePayload 1700000000000 0 1 loadedApp)
    as (Hcons & _ & _ & Hfresh & _).
  split; [exact Hcons|].
  apply Hfresh. intros item Hin. cbn in Hin.
  destruct Hin as [<-|[<-|[<-|[<-|[<-|[<-|[<-|[]]]]]]]]; discriminate.
Defined.

(** C5, counterexample: two items added in the same millisecond get the
    same id. After the load and a first add at instant 1700000000000, the
    id minted by a second add at that instant is already in the
    collection. *)
Lemma createItem_same_millisecond_collides :
  In (id (makeNewItem (H := exampleHost) samplePayload
            1700000000000 1700000000000))
     (List.map id
        (inventoryItems
           (app (run (H := exampleHost) 0
                   [LoadTimeout;
                    ItemFormSubmit (inl samplePayload)
                      1700000000000 1700000000000]
                   (mount ∅))))).
Proof. left. reflexivity. Qed.

(** Updating or deleting id "99", which no initial item has. *)
Lemma absent_id_is_noop_witness :
  updateItem (H := exampleHost) (sampleItem "99" "Ghost" 1 1 "None") 5
    (inventoryItems loadedApp) = inventoryItems loadedApp
  /\ deleteItem "99" (inventoryItems loadedApp) = inventoryItems loadedApp.
Proof.
  destruct (absent_id_is_noop (host := exampleHost) loadedApp
              (sampleItem "99" "Ghost" 1 1 "None") 5 5 "99" "Ghost")
    as (Hupdate & Hdelete & _).
  split.
  - apply Hupdate. no_such_id.
  - apply Hdelete. no_such_id.
Defined.

(** Updating the initial item with id "2". *)
Lemma updateItem_replaces_matching_witness :
  In "2" (List.map id (inventoryItems loadedApp))
  /\ List.map name
       (inventoryItems
          (handleItemFormSubmit (H := exampleHost)
             (inr (sampleItem "2" "Trackball" 9 49 "Accessories")) 5 5
             loadedApp))
     = List.map name
         (updateItem (H := exampleHost)
            (sampleItem "2" "Trackball" 9 49 "Accessories") 5
            (inventoryItems loadedApp)).
Proof.
  assert (Hpresent : In "2" (List.map id (inventoryItems loadedApp)))
    by (right; left; reflexivity).
  split; [exact Hpresent|].
  destruct (updateItem_replaces_matching (host := exampleHost) loadedApp
              (sampleItem "2" "Trackball" 9 49 "Accessories") 5 5 Hpresent)
    as (Hitems & _).
  now rewrite Hitems.
Defined.

(** The initial items have the quantities 5, 150, 8, 30, 15, 60, 12. *)
Lemma dashboard_aggregates_witness :
  List.map quantity (inventoryItems loadedApp)
  = [5; 150; 8; 30; 15; 60; 12]%float
  /\ totalItemsInStock (inventoryItems loadedApp) = 280%float
  /\ lowStockItemsCount (inventoryItems loadedApp) = 2.
Proof.
  split; [reflexivity|].
  destruct (dashboard_aggregates loadedApp
              (sampleItem "0" "Spare" 1 1 "None"))
    as (_ & _ & _ & _ & _ & _ & _ & _ & _ & _ & Hseed).
  apply Hseed. reflexivity.
Defined.

(** C7, counterexample: three units at 0.1 are valued at
    0.30000000000000004, which is more than three tenths, is not the
    double nearest to 0.3, and is not the exact product of the stored
    values either. *)
Lemma totalInventoryValue_drifts :
  totalInventoryValue driftItems = 0.30000000000000004%float
  /\ (totalInventoryValue driftItems =? 0.3)%float = false
  /\ exists v w : Q,
       exactQ (totalInventoryValue driftItems) = Some v
       /\ exactInventoryValue driftItems = Some w
       /\ (3 # 10 < v)%Q
       /\ (w < v)%Q.
Proof.
  split; [reflexivity|]. split; [reflexivity|].
  eexists. eexists.
  split; [vm_compute; reflexivity|].
  split; [vm_compute; reflexivity|].
  split; reflexivity.
Qed.

(** A first add after the load. *)
Lemma save_after_load_and_mutation_witness :
  isLoading (app loadedWorld) = false
  /\ mutates (app loadedWorld)
       (ItemFormSubmit (inl samplePayload) 1700000000000 1700000000000)
     = true
  /\ List.map fst
       (setItemLog
          (step (H := exampleHost) 0
             (ItemFormSubmit (inl samplePayload) 1700000000000 1700000000000)
             loadedWorld))
     = "inventoryItems" :: List.map fst (setItemLog loadedWorld).
Proof.
  split; [reflexivity|]. split; [reflexivity|].
  destruct (save_after_load_and_mutation (host := exampleHost) 0
              (ItemFormSubmit (inl samplePayload) 1700000000000 1700000000000)
              loadedWorld) as (Hwrite & _).
  destruct (Hwrite eq_refl eq_refl) as [Hlog _].
  now rewrite Hlog.
Defined.

(** C10, counterexample: the end of the initial load is not a mutating
    operation, and it writes the collection to the store, which was empty
    and had never been written. *)
Lemma initial_load_writes_store :
  mutates (app (mount ∅)) LoadTimeout = false
  /\ localStorage (mount ∅) !! "inventoryItems" = None
  /\ setItemLog (mount ∅) = []
  /\ setItemLog (step (H := exampleHost) 0 LoadTimeout (mount ∅))
     = [("inventoryItems",
         @JSON_stringify exampleHost
           (initialItems (H := exampleHost) 0))]
  /\ localStorage (step (H := exampleHost) 0 LoadTimeout (mount ∅))
       !! "inventoryItems"
     = Some (@JSON_stringify exampleHost
               (initialItems (H := exampleHost) 0)).
Proof.
  repeat apply conj; reflexivity.
Qed.


(** * Further properties of the component *)

(** ** Runs of events *)

Section Runs.
Context {host : Host}.

Lemma app_saveEffect (prev : App) (w : World) :
  app (saveEffect prev w) = app w.
Proof.
  unfold saveEffect. cbv zeta.
  destruct (_ && _); [reflexivity|]. now destruct (negb _).
Qed.

Lemma app_step (t0 : Z) (e : Event) (w : World) :
  app (step t0 e w) = handle t0 e (localStorage w) (app w).
Proof. unfold step. cbv zeta. now rewrite app_saveEffect. Qed.

Lemma saveEffect_other_key (prev : App) (w : World) (k : string) :
  k <> "inventoryItems" ->
  localStorage (saveEffect prev w) !! k = localStorage w !! k.
Proof.
  intros Hk. unfold saveEffect. cbv zeta.
  destruct (_ && _); [reflexivity|]. destruct (negb _); [|reflexivity].
  cbn [localStorage localStorage_setItem]. now apply lookup_insert_ne.
Qed.

Lemma saveEffect_other_log (prev : App) (w : World) (k : string) :
  k <> "inventoryItems" ->
  In k (List.map fst (setItemLog (saveEffect prev w))) ->
  In k (List.map fst (setItemLog w)).
Proof.
  intros Hk. unfold saveEffect. cbv zeta.
  destruct (_ && _); [auto|]. destruct (negb _); [|auto].
  cbn [setItemLog localStorage_setItem List.map fst In].
  intros [E|Hin]; [congruence | exact Hin].
Qed.

Lemma inventoryItems_handle (t0 : Z) (e : Event)
    (storage : gmap string string) (st : App) :
  e <> LoadTimeout -> mutates st e = false ->
  inventoryItems (handle t0 e storage st) = inventoryItems st.
Proof.
  destruct e; intros Hne Hmut; try reflexivity; try congruence;
    try discriminate.
  cbn in *. now destruct (itemToDelete st).
Qed.

Lemma isLoading_step_load (t0 : Z) (w : World) :
  isLoading (app (step t0 LoadTimeout w)) = false.
Proof. now rewrite app_step. Qed.

Lemma isLoading_step (t0 : Z) (e : Event) (w : World) :
  e <> LoadTimeout ->
  isLoading (app (step t0 e w)) = isLoading (app w).
Proof. intros Hne. rewrite app_step. now apply isLoading_handle. Qed.

Lemma Event_load_dec (e : Event) : {e = LoadTimeout} + {e <> LoadTimeout}.
Proof. destruct e; (now left) || (right; discriminate). Qed.

(** While loading, a step other than the end of the load writes nothing. *)
Lemma step_while_loading (t0 : Z) (e : Event) (w : World) :
  isLoading (app w) = true -> e <> LoadTimeout ->
  localStorage (step t0 e w) = localStorage w
  /\ setItemLog (step t0 e w) = setItemLog w
  /\ isLoading (app (step t0 e w)) = true.
Proof.
  intros Hw Hne. unfold step. cbv zeta.
  rewrite saveEffect_loading; cbn [app localStorage setItemLog];
    rewrite ?isLoading_handle by exact Hne; auto.
Qed.

(** The store mirrors the collection: a step keeps it so. *)
Lemma step_keeps_mirror (t0 : Z) (e : Event) (w : World) :
  (isLoading (app w) = false ->
   localStorage w !! "inventoryItems"
   = Some (JSON_stringify (inventoryItems (app w)))) ->
  isLoading (app (step t0 e w)) = false ->
  localStorage (step t0 e w) !! "inventoryItems"
  = Some (JSON_stringify (inventoryItems (app (step t0 e w)))).
Proof.
  intros Hmirror Hloaded.
  destruct (Event_load_dec e) as [->|Hne].
  - unfold step. cbv zeta. rewrite saveEffect_writes by reflexivity.
    apply lookup_insert_eq.
  - rewrite isLoading_step in Hloaded by exact Hne.
    unfold step. cbv zeta.
    destruct (mutates (app w) e) eqn:Hmut.
    + rewrite saveEffect_writes.
      * apply lookup_insert_eq.
      * cbn [app]. now rewrite itemsRef_handle, Hmut.
      * cbn [app]. now rewrite isLoading_handle.
    + rewrite saveEffect_skips.
      * cbn [app localStorage]. rewrite inventoryItems_handle; auto.
      * cbn [app]. now rewrite itemsRef_handle, Hmut.
      * cbn [app]. now rewrite isLoading_handle.
Qed.

Lemma uiRun_cons (t0 : Z) (u : UiEvent) (events : list UiEvent)
    (b : Browser) :
  uiRun t0 (u :: events) b = uiRun t0 events (uiStep t0 u b).
Proof. reflexivity. Qed.

Lemma uiRun_app (t0 : Z) (events events' : list UiEvent) (b : Browser) :
  uiRun t0 (events ++ events') b = uiRun t0 events' (uiRun t0 events b).
Proof. unfold uiRun. apply fold_left_app. Qed.

Lemma uiRun_invariant (t0 : Z) (P : Browser -> Prop) :
  (forall u b, P b -> P (uiStep t0 u b)) ->
  forall events b, P b -> P (uiRun t0 events b).
Proof.
  intros Hstep events. induction events as [|u events IH]; intros b Hb.
  - exact Hb.
  - rewrite uiRun_cons. apply IH, Hstep, Hb.
Qed.

(** A run of the events of [Event] alone is a run of the component. *)
Lemma uiRun_core (t0 : Z) (events : list Event) (b : Browser) :
  uiRun t0 (List.map Core events) b
  = mkBrowser (run t0 events (world b)) (theme b).
Proof.
  revert b. induction events as [|e events IH]; intros b.
  - now destruct b.
  - cbn [List.map]. rewrite uiRun_cons, IH. reflexivity.
Qed.

Lemma UiEvent_load_dec (u : UiEvent) :
  {u = Core LoadTimeout} + {u <> Core LoadTimeout}.
Proof.
  destruct u as [e| |]; try (right; discriminate).
  destruct (Event_load_dec e) as [->|Hne]; [now left|].
  right. intros E. injection E as E. contradiction.
Qed.

Lemma UiEvent_toggle_dec (u : UiEvent) :
  {u = ToggleDarkMode} + {u <> ToggleDarkMode}.
Proof. destruct u; (now left) || (right; discriminate). Qed.

Lemma world_cancel (t0 : Z) (b : Browser) :
  world (uiStep t0 CancelDelete b)
  = mkWorld (cancelDelete (app (world b))) (localStorage (world b))
      (setItemLog (world b)).
Proof. unfold uiStep. cbv zeta. cbn [world]. now rewrite saveEffect_skips. Qed.

(** What a theme toggle does to the world: one write under ["theme"]. *)
Lemma world_toggle (t0 : Z) (b : Browser) :
  world (uiStep t0 ToggleDarkMode b)
  = localStorage_setItem "theme"
      (themeName (darkMode (theme (uiStep t0 ToggleDarkMode b)))) (world b)
  /\ darkMode (theme (uiStep t0 ToggleDarkMode b))
     = negb (darkMode (theme b))
  /\ darkClass (theme (uiStep t0 ToggleDarkMode b))
     = negb (darkMode (theme b)).
Proof.
  unfold uiStep, toggleDarkMode. cbv zeta.
  now destruct (darkMode (theme b)).
Qed.

(** A step other than the end of the load leaves the loading flag. *)
Lemma isLoading_uiStep (t0 : Z) (u : UiEvent) (b : Browser) :
  u <> Core LoadTimeout ->
  isLoading (app (world (uiStep t0 u b))) = isLoading (app (world b)).
Proof.
  intros Hne. destruct u as [e| |].
  - cbn [uiStep world]. apply isLoading_step. congruence.
  - now rewrite world_cancel.
  - destruct (world_toggle t0 b) as [-> _]. reflexivity.
Qed.

Lemma uiStep_stays_loaded (t0 : Z) (u : UiEvent) (b : Browser) :
  isLoading (app (world b)) = false ->
  isLoading (app (world (uiStep t0 u b))) = false.
Proof.
  intros Hb. destruct (UiEvent_load_dec u) as [->|Hne].
  - apply isLoading_step_load.
  - now rewrite isLoading_uiStep.
Qed.

Lemma uiRun_loaded (t0 : Z) (events : list UiEvent) (b : Browser) :
  In (Core LoadTimeout) events ->
  isLoading (app (world (uiRun t0 events b))) = false.
Proof.
  revert b. induction events as [|u events IH]; intros b Hin; [destruct Hin|].
  rewrite uiRun_cons. destruct (UiEvent_load_dec u) as [->|Hne].
  - apply (uiRun_invariant t0
             (fun b => isLoading (app (world b)) = false)).
    + intros u b'. apply uiStep_stays_loaded.
    + apply isLoading_step_load.
  - apply IH. destruct Hin as [E|Hin]; [congruence | exact Hin].
Qed.

Lemma uiStep_keeps_mirror (t0 : Z) (u : UiEvent) (b : Browser) :
  (isLoading (app (world b)) = false ->
   localStorage (world b) !! "inventoryItems"
   = Some (JSON_stringify (inventoryItems (app (world b))))) ->
  isLoading (app (world (uiStep t0 u b))) = false ->
  localStorage (world (uiStep t0 u b)) !! "inventoryItems"
  = Some (JSON_stringify (inventoryItems (app (world (uiStep t0 u b))))).
Proof.
  intros Hmirror. destruct u as [e| |].
  - cbn [uiStep world]. now apply step_keeps_mirror.
  - rewrite world_cancel. exact Hmirror.
  - destruct (world_toggle t0 b) as [-> _].
    cbn [localStorage_setItem localStorage app].
    rewrite lookup_insert_ne by discriminate. exact Hmirror.
Qed.

(** While loading, nothing is written under ["inventoryItems"]. *)
Lemma uiStep_while_loading (t0 : Z) (u : UiEvent) (b : Browser) :
  isLoading (app (world b)) = true -> u <> Core LoadTimeout ->
  localStorage (world (uiStep t0 u b)) !! "inventoryItems"
  = localStorage (world b) !! "inventoryItems"
  /\ (~ In "inventoryItems" (List.map fst (setItemLog (world b))) ->
      ~ In "inventoryItems"
          (List.map fst (setItemLog (world (uiStep t0 u b)))))
  /\ isLoading (app (world (uiStep t0 u b))) = true.
Proof.
  intros Hb Hne. destruct u as [e| |].
  - cbn [uiStep world].
    destruct (step_while_loading t0 e (world b) Hb) as (-> & -> & ->);
      [congruence | auto].
  - rewrite world_cancel. auto.
  - destruct (world_toggle t0 b) as [-> _].
    cbn [localStorage_setItem localStorage app setItemLog List.map fst In].
    rewrite lookup_insert_ne by discriminate.
    repeat apply conj; auto. intros Hlog [E|Hin]; [discriminate | auto].
Qed.

Lemma uiRun_while_loading (t0 : Z) (events : list UiEvent) (b : Browser) :
  isLoading (app (world b)) = true -> ~ In (Core LoadTimeout) events ->
  localStorage (world (uiRun t0 events b)) !! "inventoryItems"
  = localStorage (world b) !! "inventoryItems"
  /\ (~ In "inventoryItems" (List.map fst (setItemLog (world b))) ->
      ~ In "inventoryItems"
          (List.map fst (setItemLog (world (uiRun t0 events b)))))
  /\ isLoading (app (world (uiRun t0 events b))) = true.
Proof.
  revert b. induction events as [|u events IH]; intros b Hb Hnot; [auto|].
  rewrite uiRun_cons.
  destruct (uiStep_while_loading t0 u b Hb) as (Es & El & Eload).
  { intros ->. apply Hnot. now left. }
  destruct (IH (uiStep t0 u b) Eload) as (Es' & El' & Eload').
  { intros Hin. apply Hnot. now right. }
  rewrite Es', Es. auto.
Qed.

(** The load reads the store under ["inventoryItems"] and nowhere else,
    and does not look at the collection it replaces. *)
Lemma loadTimeout_reads_one_key (t0 : Z)
    (storage storage' : gmap string string) (st st' : App) :
  storage !! "inventoryItems" = storage' !! "inventoryItems" ->
  inventoryItems (loadTimeout t0 storage st)
  = inventoryItems (loadTimeout t0 storage' st').
Proof.
  intros E. unfold loadTimeout. cbv zeta.
  cbn [inventoryItems setIsLoading setInventoryItems]. now rewrite E.
Qed.

(** X1: the end of the load never fails and always leaves loading. With
    no stored value, with a stored empty string and with a stored value
    that does not parse, the collection becomes the initial data; with one
    that parses, it becomes the parsed collection. The view settings are
    left as they were. *)
Theorem loadTimeout_falls_back (t0 : Z) (storage : gmap string string)
    (st : App) :
  let st' := loadTimeout t0 storage st in
  isLoading st' = false
  /\ (storage !! "inventoryItems" = None ->
      inventoryItems st' = initialItems t0)
  /\ (storage !! "inventoryItems" = Some EmptyString ->
      inventoryItems st' = initialItems t0)
  /\ (forall s, storage !! "inventoryItems" = Some s ->
        JSON_parse s = None -> inventoryItems st' = initialItems t0)
  /\ (forall s items,
        storage !! "inventoryItems" = Some s -> s <> EmptyString ->
        JSON_parse s = Some items -> inventoryItems st' = items)
  /\ searchTerm st' = searchTerm st
  /\ selectedCategory st' = selectedCategory st
  /\ sortConfig st' = sortConfig st
  /\ currentPage st' = currentPage st
  /\ itemsPerPage st' = itemsPerPage st.
Proof.
  intros st'. subst st'. unfold loadTimeout. cbv zeta.
  cbn [isLoading inventoryItems setIsLoading setInventoryItems searchTerm
       selectedCategory sortConfig currentPage itemsPerPage].
  repeat apply conj; try reflexivity.
  - now intros ->.
  - now intros ->.
  - intros s -> Hparse. rewrite Hparse. now destruct (truthy s).
  - intros s items -> Hs Hparse. apply truthy_true in Hs.
    now rewrite Hs, Hparse.
Qed.

(** X2: the store mirrors the collection. After any sequence of events
    of the component that contains the end of the load, the value stored
    under ["inventoryItems"] is the serialisation of the current
    collection; before the load has ended, that key has not been written
    and holds what it held at mount. *)
Theorem store_mirrors_collection (t0 : Z) (prefersDark cls : bool)
    (storage : gmap string string) (events : list UiEvent) :
  let w :=
    world (uiRun t0 events (mountBrowser prefersDark cls storage)) in
  (In (Core LoadTimeout) events ->
     isLoading (app w) = false
     /\ localStorage w !! "inventoryItems"
        = Some (JSON_stringify (inventoryItems (app w))))
  /\ (~ In (Core LoadTimeout) events ->
        isLoading (app w) = true
        /\ localStorage w !! "inventoryItems" = storage !! "inventoryItems"
        /\ ~ In "inventoryItems" (List.map fst (setItemLog w))).
Proof.
  cbv zeta. split.
  - intros Hin.
    pose proof (uiRun_loaded t0 events
                  (mountBrowser prefersDark cls storage) Hin) as El.
    split; [exact El|]. revert El.
    apply (uiRun_invariant t0
      (fun b => isLoading (app (world b)) = false ->
                localStorage (world b) !! "inventoryItems"
                = Some (JSON_stringify (inventoryItems (app (world b)))))).
    + intros u b. apply uiStep_keeps_mirror.
    + discriminate.
  - intros Hnot.
    destruct (uiRun_while_loading t0 events
                (mountBrowser prefersDark cls storage) eq_refl Hnot)
      as (Es & El & Eload).
    repeat apply conj; auto.
Qed.

(** X3: what happens before the load ends is lost. Whatever events ran
    while loading, the collection after the end of the load is the one a
    load straight after mounting gives. *)
Theorem load_discards_earlier_changes (t0 : Z) (prefersDark cls : bool)
    (storage : gmap string string) (events : list UiEvent) :
  ~ In (Core LoadTimeout) events ->
  inventoryItems
    (app (world (uiRun t0 (events ++ [Core LoadTimeout])
                   (mountBrowser prefersDark cls storage))))
  = inventoryItems (app (step t0 LoadTimeout (mount storage))).
Proof.
  intros Hnot. rewrite uiRun_app. cbn [uiRun fold_left uiStep world].
  rewrite !app_step. cbn [handle].
  apply loadTimeout_reads_one_key.
  now destruct (uiRun_while_loading t0 events
                  (mountBrowser prefersDark cls storage) eq_refl Hnot)
    as (Es & _ & _).
Qed.

(** X4: reloading restores the collection. If the host reads back what it
    wrote for the current collection, and wrote something, then mounting
    again over the store left by any run past the load, and loading, gives
    the same collection. *)
Theorem reload_restores_collection (t0 t1 : Z) (prefersDark cls : bool)
    (storage : gmap string string) (events : list UiEvent) :
  let w :=
    world (uiRun t0 events (mountBrowser prefersDark cls storage)) in
  let items := inventoryItems (app w) in
  In (Core LoadTimeout) events ->
  JSON_parse (JSON_stringify items) = Some items ->
  JSON_stringify items <> EmptyString ->
  inventoryItems (app (step t1 LoadTimeout (mount (localStorage w)))) = items.
Proof.
  intros w items Hin Hparse Hne. subst items.
  pose proof (uiRun_loaded t0 events
                (mountBrowser prefersDark cls storage) Hin) as El.
  assert (Hmirror : localStorage w !! "inventoryItems"
                    = Some (JSON_stringify (inventoryItems (app w)))).
  { subst w. revert El.
    apply (uiRun_invariant t0
      (fun b => isLoading (app (world b)) = false ->
                localStorage (world b) !! "inventoryItems"
                = Some (JSON_stringify (inventoryItems (app (world b)))))).
    - intros u b. apply uiStep_keeps_mirror.
    - discriminate. }
  rewrite app_step.
  cbn [handle localStorage mount app]. unfold loadTimeout. cbv zeta.
  cbn [inventoryItems setIsLoading setInventoryItems].
  rewrite Hmirror. apply truthy_true in Hne. now rewrite Hne, Hparse.
Qed.

(** X5: in every state the component reaches, the item form holds no item
    to edit while it is closed, and the delete confirmation is not open
    without an item to delete. *)
Theorem modals_hold_their_item (t0 : Z) (prefersDark cls : bool)
    (storage : gmap string string) (events : list UiEvent) :
  let st :=
    app (world (uiRun t0 events (mountBrowser prefersDark cls storage))) in
  (isModalOpen st = false -> editingItem st = None)
  /\ (isDeleteConfirmModalOpen st = true -> itemToDelete st <> None).
Proof.
  cbv zeta.
  apply (uiRun_invariant t0
    (fun b => (isModalOpen (app (world b)) = false ->
               editingItem (app (world b)) = None)
              /\ (isDeleteConfirmModalOpen (app (world b)) = true ->
                  itemToDelete (app (world b)) <> None))).
  - intros u b [Hedit Hdel]. destruct u as [e| |].
    + cbn [uiStep world]. rewrite app_step.
      destruct e; cbn; try (split; [exact Hedit | exact Hdel]);
        try (split; [reflexivity || discriminate | exact Hdel]).
      * destruct itemData; cbn; (split; [reflexivity | exact Hdel]).
      * split; [exact Hedit | discriminate].
      * destruct (itemToDelete (app (world b))) as [[? ?]|]; cbn;
          (split; [exact Hedit | discriminate]).
    + rewrite world_cancel. cbn. split; [exact Hedit | discriminate].
    + destruct (world_toggle t0 b) as [-> _]. cbn. now split.
  - split; [reflexivity | discriminate].
Qed.

(** X6: the theme survives a reload. In every state the component
    reaches, the [dark] class agrees with the mode. Once the theme has
    been toggled, the store holds the word for the current mode, and
    loading the theme afresh from the store gives that mode whatever the
    system prefers; until then the theme is the one chosen at mount and
    the component has not written the key: its value is the one found at
    mount and no call of [localStorage.setItem] names it. *)
Theorem theme_survives_reload (t0 : Z) (prefersDark cls : bool)
    (storage : gmap string string) (events : list UiEvent) :
  let b := uiRun t0 events (mountBrowser prefersDark cls storage) in
  darkClass (theme b) = darkMode (theme b)
  /\ (In ToggleDarkMode events ->
      localStorage (world b) !! "theme"
      = Some (themeName (darkMode (theme b)))
      /\ forall prefersDark' cls',
           darkMode
             (loadTheme prefersDark' (localStorage (world b))
                (initialTheme cls'))
           = darkMode (theme b))
  /\ (~ In ToggleDarkMode events ->
      theme b = loadTheme prefersDark storage (initialTheme cls)
      /\ localStorage (world b) !! "theme" = storage !! "theme"
      /\ ~ In "theme" (List.map fst (setItemLog (world b)))).
Proof.
  cbv zeta.
  assert (Hother : forall u b, u <> ToggleDarkMode ->
            theme (uiStep t0 u b) = theme b
            /\ localStorage (world (uiStep t0 u b)) !! "theme"
               = localStorage (world b) !! "theme").
  { intros u b Hne. destruct u as [e| |]; [| |congruence].
    - split; [reflexivity|]. cbn [uiStep world]. unfold step. cbv zeta.
      now rewrite saveEffect_other_key.
    - split; [reflexivity|]. now rewrite world_cancel. }
  assert (Hlog : forall u b, u <> ToggleDarkMode ->
            In "theme" (List.map fst (setItemLog (world (uiStep t0 u b)))) ->
            In "theme" (List.map fst (setItemLog (world b)))).
  { intros u b Hne. destruct u as [e| |]; [| |congruence].
    - cbn [uiStep world]. unfold step. cbv zeta. intros Hin.
      now apply saveEffect_other_log in Hin.
    - now rewrite world_cancel. }
  assert (Hstored : forall u b,
            localStorage (world b) !! "theme"
            = Some (themeName (darkMode (theme b))) ->
            localStorage (world (uiStep t0 u b)) !! "theme"
            = Some (themeName (darkMode (theme (uiStep t0 u b))))).
  { intros u b Hb. destruct (UiEvent_toggle_dec u) as [->|Hne].
    - destruct (world_toggle t0 b) as [-> _]. apply lookup_insert_eq.
    - destruct (Hother u b Hne) as [-> ->]. exact Hb. }
  split; [|split].
  - apply (uiRun_invariant t0
             (fun b => darkClass (theme b) = darkMode (theme b))).
    + intros u b Hb. destruct (UiEvent_toggle_dec u) as [->|Hne].
      * destruct (world_toggle t0 b) as (_ & -> & ->). reflexivity.
      * now destruct (Hother u b Hne) as [-> _].
    + unfold mountBrowser, loadTheme. cbv zeta. cbn [theme].
      now destruct (_ || _).
  - intros Hin.
    assert (Hkey : localStorage
                     (world (uiRun t0 events
                               (mountBrowser prefersDark cls storage)))
                     !! "theme"
                   = Some (themeName
                             (darkMode
                                (theme (uiRun t0 events
                                          (mountBrowser prefersDark cls
                                             storage)))))).
    { generalize (mountBrowser prefersDark cls storage). revert Hin.
      induction events as [|u events IH]; intros Hin b; [destruct Hin|].
      rewrite uiRun_cons. destruct (UiEvent_toggle_dec u) as [->|Hne].
      - apply (uiRun_invariant t0
          (fun b => localStorage (world b) !! "theme"
                    = Some (themeName (darkMode (theme b))))).
        + intros u b'. apply Hstored.
        + destruct (world_toggle t0 b) as [-> _]. apply lookup_insert_eq.
      - apply IH. destruct Hin as [E|Hin]; [congruence | exact Hin]. }
    split; [exact Hkey|]. intros prefersDark' cls'.
    unfold loadTheme. cbv zeta. rewrite Hkey.
    now destruct (darkMode (theme _)).
  - assert (Hgen : forall b0, ~ In ToggleDarkMode events ->
              theme (uiRun t0 events b0) = theme b0
              /\ localStorage (world (uiRun t0 events b0)) !! "theme"
                 = localStorage (world b0) !! "theme").
    { induction events as [|u events IH]; intros b0 Hnot; [auto|].
      rewrite uiRun_cons.
      destruct (IH (uiStep t0 u b0)) as [-> ->].
      { intros Hin. apply Hnot. now right. }
      apply Hother. intros ->. apply Hnot. now left. }
    assert (Hlogs : forall b0, ~ In ToggleDarkMode events ->
              In "theme"
                (List.map fst (setItemLog (world (uiRun t0 events b0)))) ->
              In "theme" (List.map fst (setItemLog (world b0)))).
    { clear Hgen.
      induction events as [|u events IH]; intros b0 Hnot; [auto|].
      rewrite uiRun_cons. intros Hin.
      apply (Hlog u); [intros ->; apply Hnot; now left|].
      apply IH; [|exact Hin]. intros Hin'. apply Hnot. now right. }
    intros Hnot.
    destruct (Hgen (mountBrowser prefersDark cls storage) Hnot)
      as [-> ->].
    split; [reflexivity|]. split; [reflexivity|].
    intros Hin. apply Hlogs in Hin; [|exact Hnot]. exact Hin.
Qed.

End Runs.

(** ** The query and the pages *)

Lemma In_firstn_skipn {A : Type} (x : A) (n m : nat) (l : list A) :
  In x (firstn n (skipn m l)) -> In x l.
Proof.
  intros Hin.
  rewrite <- (firstn_skipn m l). apply in_or_app. right.
  rewrite <- (firstn_skipn n (skipn m l)). apply in_or_app. now left.
Qed.

Lemma In_Array_slice {A : Type} (x : A) (l : list A) (start final : Z) :
  In x (Array_slice l start final) -> In x l.
Proof. unfold Array_slice. cbv zeta. apply In_firstn_skipn. Qed.

Lemma append_empty_r (s : string) : (s ++ EmptyString)%string = s.
Proof.
  induction s as [|c s IH]; [reflexivity|].
  change (String c (s ++ EmptyString)%string = String c s). now f_equal.
Qed.

Lemma includes_refl (s : string) : includes s s = true.
Proof.
  apply includes_split. exists EmptyString, EmptyString.
  simpl. now rewrite append_empty_r.
Qed.

Lemma ItemKey_eqb_eq (a b : ItemKey) : ItemKey_eqb a b = true <-> a = b.
Proof. destruct a, b; simpl; split; congruence. Qed.

Lemma Array_sort_ordered_id {A : Type} (comparefn : A -> A -> number)
    (l : list A) :
  StronglySorted (notAfter comparefn) l -> Array_sort comparefn l = l.
Proof.
  induction 1 as [|x l Hsorted IH Hx]; [reflexivity|].
  cbn [Array_sort fold_right]. fold (Array_sort comparefn l). rewrite IH.
  destruct l as [|y l]; [reflexivity|]. cbn [insert].
  apply Forall_inv in Hx. unfold notAfter in Hx.
  now destruct (SortCompare (comparefn x y)).
Qed.

Lemma paginatedItems_window (l : list InventoryItem) (page : Z)
    (size : ItemsPerPage) :
  (1 <= page)%Z ->
  paginatedItems l page size
  = firstn (Z.to_nat (perPage size))
      (skipn (Z.to_nat ((page - 1) * perPage size)) l).
Proof.
  intros Hpage. unfold paginatedItems. cbv zeta.
  assert (0 < perPage size)%Z by (destruct size; simpl; lia).
  rewrite Array_slice_forward by nia. do 2 f_equal. lia.
Qed.

Lemma totalPages_bounds (l : list InventoryItem) (size : ItemsPerPage) :
  (Z.of_nat (length l) <= totalPages l size * perPage size
   < Z.of_nat (length l) + perPage size)%Z.
Proof.
  unfold totalPages.
  assert (Hsize : (perPage size > 0)%Z) by (destruct size; simpl; lia).
  pose proof (Z_div_mod (Z.of_nat (length l)) (perPage size) Hsize) as Hdiv.
  destruct (Z.div_eucl (Z.of_nat (length l)) (perPage size)) as [q r].
  destruct Hdiv as [E Hr]. destruct (Z.eqb_spec r 0); nia.
Qed.

Lemma pages_concat (n : nat) (l : list InventoryItem) (k : nat) :
  concat (List.map (fun p => firstn n (skipn ((p - 1) * n) l)) (seq 1 k))
  = firstn (k * n) l.
Proof.
  induction k as [|k IH]; [reflexivity|].
  rewrite seq_S, List.map_app, concat_app, IH. cbn [List.map concat].
  rewrite app_nil_r. replace (1 + k - 1)%nat with k by lia.
  rewrite take_take_drop. f_equal. lia.
Qed.

Section Query.
Context {host : Host}.

Lemma query_unfold (items : list InventoryItem)
    (searchTerm selectedCategory : string) (cfg : SortConfig) :
  filteredAndSortedItems items searchTerm selectedCategory cfg
  = sortStep cfg
      (List.filter (passesFilters searchTerm selectedCategory) items).
Proof.
  unfold filteredAndSortedItems, sortStep; cbv zeta.
  now rewrite filter_steps.
Qed.

Lemma sortStep_Permutation (cfg : SortConfig) (l : list InventoryItem) :
  Permutation (sortStep cfg l) l.
Proof.
  unfold sortStep. destruct (key cfg); [apply Array_sort_Permutation|].
  reflexivity.
Qed.

Lemma In_query (item : InventoryItem) (items : list InventoryItem)
    (searchTerm selectedCategory : string) (cfg : SortConfig) :
  In item (filteredAndSortedItems items searchTerm selectedCategory cfg)
  <-> In item items
      /\ passesFilters searchTerm selectedCategory item = true.
Proof.
  rewrite query_unfold, <- filter_In.
  split; apply Permutation_in; [|symmetry]; apply sortStep_Permutation.
Qed.

(** X7: a deleted id is never shown again. Whatever the search term, the
    category, the sort and the page, no item on the page carries the
    deleted id, and every item on the page is an item of the collection
    as it was before. *)
Theorem deleted_id_is_never_shown (st : App) (itemId itemName : string)
    (searchTerm selectedCategory : string) (cfg : SortConfig) (page : Z)
    (size : ItemsPerPage) (item : InventoryItem) :
  let st' := confirmDeleteItem (handleDeleteRequest itemId itemName st) in
  In item
    (paginatedItems
       (filteredAndSortedItems (inventoryItems st') searchTerm
          selectedCategory cfg)
       page size) ->
  id item <> itemId /\ In item (inventoryItems st).
Proof.
  intros st' Hin. subst st'. rewrite inventoryItems_remove in Hin.
  apply In_Array_slice, In_query in Hin as [Hin _].
  unfold deleteItem in Hin. apply filter_In in Hin as [Hin Hid].
  split; [|exact Hin].
  intros E. rewrite E, String.eqb_refl in Hid. discriminate.
Qed.

(** X8: the sort setting changes the order of the result and nothing
    else: under two sort settings the query returns the same items, the
    same number of times each, so the page count is the same. *)
Theorem sort_only_reorders (items : list InventoryItem)
    (searchTerm selectedCategory : string) (cfg cfg' : SortConfig)
    (size : ItemsPerPage) :
  Permutation
    (filteredAndSortedItems items searchTerm selectedCategory cfg)
    (filteredAndSortedItems items searchTerm selectedCategory cfg')
  /\ totalPages
       (filteredAndSortedItems items searchTerm selectedCategory cfg) size
     = totalPages
         (filteredAndSortedItems items searchTerm selectedCategory cfg') size.
Proof.
  assert (Hperm : Permutation
    (filteredAndSortedItems items searchTerm selectedCategory cfg)
    (filteredAndSortedItems items searchTerm selectedCategory cfg')).
  { rewrite !query_unfold, !sortStep_Permutation. reflexivity. }
  split; [exact Hperm|].
  unfold totalPages. now rewrite (Permutation_length Hperm).
Qed.

(** X9: searching for an item's own name, sku or category finds it, also
    when the category filter is set to the item's category. *)
Theorem search_finds_own_fields (items : list InventoryItem)
    (item : InventoryItem) (cfg : SortConfig) :
  In item items ->
  In item (filteredAndSortedItems items (name item) EmptyString cfg)
  /\ In item (filteredAndSortedItems items (sku item) EmptyString cfg)
  /\ In item (filteredAndSortedItems items (category item) EmptyString cfg)
  /\ In item (filteredAndSortedItems items (name item) (category item) cfg)
  /\ In item (filteredAndSortedItems items (sku item) (category item) cfg)
  /\ In item
       (filteredAndSortedItems items (category item) (category item) cfg).
Proof.
  intros Hin. rewrite !In_query. unfold passesFilters, matchesSearch.
  rewrite !includes_refl, String.eqb_refl, !orb_true_r.
  repeat apply conj; auto.
Qed.

(** X10: for a comparator that is consistent on the filtered items, the
    result of the query is in the comparator's order: no item is followed
    by one that the comparator places before it. *)
Theorem query_is_ordered (items : list InventoryItem)
    (searchTerm selectedCategory : string) (k : ItemKey) (dir : Direction) :
  consistentOn (comparator k dir)
    (filteredAndSortedItems items searchTerm selectedCategory
       (mkSortConfig None dir)) ->
  StronglySorted (notAfter (comparator k dir))
    (filteredAndSortedItems items searchTerm selectedCategory
       (mkSortConfig (Some k) dir)).
Proof.
  rewrite !query_unfold. unfold sortStep. cbn [key direction].
  apply Array_sort_sorted.
Qed.

(** X11: running the query on its own result changes nothing, for a
    comparator that is consistent on the collection. *)
Theorem query_is_idempotent (items : list InventoryItem)
    (searchTerm selectedCategory : string) (cfg : SortConfig) :
  (forall k, key cfg = Some k ->
             consistentOn (comparator k (direction cfg)) items) ->
  let result :=
    filteredAndSortedItems items searchTerm selectedCategory cfg in
  filteredAndSortedItems result searchTerm selectedCategory cfg = result.
Proof.
  intros Hcons result.
  assert (Hpass : List.filter (passesFilters searchTerm selectedCategory)
                    result = result).
  { apply filter_all. intros x Hx. now apply In_query in Hx. }
  rewrite query_unfold, Hpass. subst result.
  unfold sortStep at 1. destruct (key cfg) as [k|] eqn:Ek; [|reflexivity].
  apply Array_sort_ordered_id.
  rewrite query_unfold. unfold sortStep. rewrite Ek.
  apply Array_sort_sorted.
  destruct (Hcons k eq_refl) as [Htotal Htrans].
  split.
  - intros a b Ha Hb. apply Htotal; eapply filter_In; eassumption.
  - intros a b c Ha Hb Hc. apply Htrans; eapply filter_In; eassumption.
Qed.

End Query.

(** ** Pages *)

(** X12: the pages 1 to [totalPages] cut the list into consecutive pieces:
    put end to end they give the list back, none of them is empty, every
    page after them is empty, and there is no page exactly when the list
    is empty. *)
Theorem pages_cover_the_list (l : list InventoryItem) (size : ItemsPerPage) :
  let n := totalPages l size in
  concat
    (List.map (fun p => paginatedItems l (Z.of_nat p) size)
       (seq 1 (Z.to_nat n))) = l
  /\ (forall page, (1 <= page <= n)%Z -> paginatedItems l page size <> [])
  /\ (forall page, (n < page)%Z -> paginatedItems l page size = [])
  /\ (n = 0%Z <-> l = []).
Proof.
  intros n. pose proof (totalPages_bounds l size) as Hn. fold n in Hn.
  assert (Hsize : (0 < perPage size)%Z) by (destruct size; simpl; lia).
  assert (Hn0 : (0 <= n)%Z) by nia.
  split; [|split; [|split]].
  - rewrite (map_ext_in _
      (fun p => firstn (Z.to_nat (perPage size))
                  (skipn ((p - 1) * Z.to_nat (perPage size)) l))).
    + rewrite pages_concat. apply firstn_all2. nia.
    + intros p Hp. apply in_seq in Hp.
      rewrite paginatedItems_window by lia. do 2 f_equal. nia.
  - intros page Hpage E. apply (f_equal (@length _)) in E.
    rewrite paginatedItems_window in E by lia.
    rewrite length_firstn, length_skipn in E. cbn [length] in E. nia.
  - intros page Hpage. rewrite paginatedItems_window by lia.
    rewrite skipn_all2 by nia. apply firstn_nil.
  - rewrite <- length_zero_iff_nil. nia.
Qed.

(** X13: a page number below 1 never fails. Page 0 is empty; a negative
    page is a window counted from the end of the list: it runs from
    [length + (page-1)*pageSize] to [length + page*pageSize], each raised
    to 0 when negative. *)
Theorem paginate_below_first_page (l : list InventoryItem) (page : Z)
    (size : ItemsPerPage) :
  let len := Z.of_nat (length l) in
  (page = 0%Z -> paginatedItems l page size = [])
  /\ ((page < 0)%Z ->
      paginatedItems l page size
      = firstn
          (Z.to_nat (Z.max (len + page * perPage size) 0
                     - Z.max (len + (page - 1) * perPage size) 0))
          (skipn (Z.to_nat (Z.max (len + (page - 1) * perPage size) 0)) l)).
Proof.
  intros len.
  assert (Hsize : (0 < perPage size)%Z) by (destruct size; simpl; lia).
  unfold paginatedItems, Array_slice. cbv zeta. fold len. split.
  - intros ->.
    destruct (Z.ltb_spec ((0 - 1) * perPage size) 0); [|lia].
    destruct (Z.ltb_spec ((0 - 1) * perPage size + perPage size) 0); [lia|].
    replace (Z.to_nat _) with 0%nat by lia. reflexivity.
  - intros Hpage.
    destruct (Z.ltb_spec ((page - 1) * perPage size) 0); [|nia].
    destruct (Z.ltb_spec ((page - 1) * perPage size + perPage size) 0);
      [|nia].
    do 3 f_equal; f_equal; lia.
Qed.

Section Views.
Context {host : Host}.

(** X14: asking for a sort, choosing a category and changing the page size
    go back to page 1, which shows the first items found and is empty only
    when nothing was found. *)
Theorem page_reset_shows_results (st st' : App) (k : ItemKey) (c : string)
    (n : ItemsPerPage) :
  st' = requestSort k st \/ st' = handleCategoryChange c st
  \/ st' = onItemsPerPageChange n st ->
  let found :=
    filteredAndSortedItems (inventoryItems st') (searchTerm st')
      (selectedCategory st') (sortConfig st') in
  currentPage st' = 1%Z
  /\ inventoryItems st' = inventoryItems st
  /\ visibleItems st' = firstn (Z.to_nat (perPage (itemsPerPage st'))) found
  /\ (visibleItems st' = [] <-> found = []).
Proof.
  intros Hst' found.
  assert (Hsize : (0 < perPage (itemsPerPage st'))%Z)
    by (destruct (itemsPerPage st'); simpl; lia).
  assert (Hpage : currentPage st' = 1%Z)
    by (destruct Hst' as [->|[->| ->]]; reflexivity).
  assert (Hvisible : visibleItems st'
            = firstn (Z.to_nat (perPage (itemsPerPage st'))) found).
  { unfold visibleItems. fold found. rewrite Hpage.
    now rewrite paginatedItems_window by lia. }
  split; [exact Hpage|]. split; [|split; [exact Hvisible|]].
  - destruct Hst' as [->|[->| ->]]; reflexivity.
  - rewrite Hvisible. rewrite <- !length_zero_iff_nil, length_firstn. lia.
Qed.

End Views.

(** X15: asking for a sort on a key selects that key and leaves the
    collection alone. The direction is descending exactly when the key was
    already selected in ascending direction, so asking again for the same
    key alternates the two directions, and asking for another key starts
    ascending. *)
Theorem requestSort_alternates (st : App) (k k' : ItemKey) :
  key (sortConfig (requestSort k st)) = Some k
  /\ inventoryItems (requestSort k st) = inventoryItems st
  /\ (sortConfig st = mkSortConfig (Some k) ascending ->
      direction (sortConfig (requestSort k st)) = descending)
  /\ (sortConfig st <> mkSortConfig (Some k) ascending ->
      direction (sortConfig (requestSort k st)) = ascending)
  /\ sortConfig (requestSort k (requestSort k (requestSort k st)))
     = sortConfig (requestSort k st)
  /\ direction (sortConfig (requestSort k (requestSort k st)))
     <> direction (sortConfig (requestSort k st))
  /\ (k' <> k ->
      sortConfig (requestSort k' (requestSort k st))
      = mkSortConfig (Some k') ascending).
Proof.
  assert (Hrefl : ItemKey_eqb k k = true) by now apply ItemKey_eqb_eq.
  unfold requestSort.
  cbn [sortConfig setCurrentPage setSortConfig key direction inventoryItems].
  repeat apply conj; try reflexivity.
  - intros ->. cbn [key direction]. now rewrite Hrefl.
  - intros Hne. destruct (sortConfig st) as [[k0|] [|]]; cbn [key direction];
      try reflexivity.
    destruct (ItemKey_eqb k0 k) eqn:E; [|reflexivity].
    apply ItemKey_eqb_eq in E. now subst k0.
  - rewrite Hrefl.
    destruct (key (sortConfig st)) as [k0|], (direction (sortConfig st));
      try destruct (ItemKey_eqb k0 k); cbn; rewrite ?Hrefl; reflexivity.
  - rewrite Hrefl.
    destruct (key (sortConfig st)) as [k0|], (direction (sortConfig st));
      try destruct (ItemKey_eqb k0 k); cbn; discriminate.
  - intros Hne.
    assert (E : ItemKey_eqb k k' = false).
    { destruct (ItemKey_eqb k k') eqn:E; [|reflexivity].
      apply ItemKey_eqb_eq in E. now subst k'. }
    rewrite E.
    now destruct (key (sortConfig st)) as [k0|], (direction (sortConfig st));
      try destruct (ItemKey_eqb k0 k).
Qed.

(** ** The category list *)

Lemma existsb_eqb_In (x : string) (l : list string) :
  existsb (String.eqb x) l = true <-> In x l.
Proof.
  rewrite existsb_exists. split.
  - intros [y [Hy E]]. apply String.eqb_eq in E. now subst y.
  - intros Hx. exists x. split; [exact Hx | apply String.eqb_refl].
Qed.

Lemma In_Set_addAll (x : string) (l seen : list string) :
  In x (Set_addAll seen l) <-> In x seen \/ In x l.
Proof.
  revert seen. induction l as [|y l IH]; intros seen; cbn [Set_addAll].
  - cbn [In]. tauto.
  - rewrite IH. destruct (existsb (String.eqb y) seen) eqn:E.
    + apply existsb_eqb_In in E. cbn [In].
      split; [tauto | intros [H|[<-|H]]; tauto].
    + rewrite in_app_iff. cbn [In]. tauto.
Qed.

Lemma NoDup_Set_addAll (l seen : list string) :
  List.NoDup seen -> List.NoDup (Set_addAll seen l).
Proof.
  revert seen. induction l as [|y l IH]; intros seen Hseen; [exact Hseen|].
  cbn [Set_addAll]. apply IH.
  destruct (existsb (String.eqb y) seen) eqn:E; [exact Hseen|].
  apply List.NoDup_app; [exact Hseen | repeat constructor; intros [] |].
  intros x Hx [<-|[]].
  apply existsb_eqb_In in Hx. congruence.
Qed.

Lemma SortCompare_codeUnitCompare (a b : string) :
  SortCompare (codeUnitCompare a b) = String.compare a b.
Proof. unfold codeUnitCompare. now destruct (String.compare a b). Qed.

Lemma compare_not_Gt_trans (a b c : string) :
  String.compare a b <> Gt -> String.compare b c <> Gt ->
  String.compare a c <> Gt.
Proof.
  intros Hab Hbc.
  destruct (String.compare a b) eqn:Eab; [| |congruence].
  - apply String_as_OT.cmp_eq in Eab. now subst b.
  - destruct (String.compare b c) eqn:Ebc; [| |congruence].
    + apply String_as_OT.cmp_eq in Ebc. subst c. now rewrite Eab.
    + apply String_as_OT.cmp_lt in Eab, Ebc.
      pose proof (String_as_OT.lt_trans _ _ _ Eab Ebc) as Hac.
      apply String_as_OT.cmp_lt in Hac.
      unfold String_as_OT.cmp in Hac. now rewrite Hac.
Qed.

Lemma codeUnitCompare_consistent (l : list string) :
  consistentOn codeUnitCompare l.
Proof.
  split.
  - intros a b _ _. unfold notAfter.
    rewrite !SortCompare_codeUnitCompare, (String.compare_antisym a b).
    destruct (String.compare b a); simpl; congruence.
  - intros a b c _ _ _. unfold notAfter.
    rewrite !SortCompare_codeUnitCompare. apply compare_not_Gt_trans.
Qed.

Lemma StronglySorted_NoDup_strict (l : list string) :
  StronglySorted (notAfter codeUnitCompare) l -> List.NoDup l ->
  StronglySorted (fun a b => String.compare a b = Lt) l.
Proof.
  induction 1 as [|x l Hsorted IH Hx]; intros Hnodup; constructor.
  - apply IH. now apply List.NoDup_cons_iff in Hnodup.
  - apply List.NoDup_cons_iff in Hnodup as [Hnotin _].
    rewrite List.Forall_forall in Hx |- *. intros y Hy.
    specialize (Hx y Hy). unfold notAfter in Hx.
    rewrite SortCompare_codeUnitCompare in Hx.
    destruct (String.compare x y) eqn:E; [|reflexivity|congruence].
    apply String_as_OT.cmp_eq in E. now subst y.
Qed.

Lemma In_categories (c : string) (items : list InventoryItem) :
  In c (categories items) <->
  exists item, In item items /\ category item = c.
Proof.
  unfold categories, Array_from_Set.
  rewrite In_Array_sort, In_Set_addAll, in_map_iff. cbn [In].
  split.
  - intros [[]|[item [E Hin]]]. now exists item.
  - intros [item [Hin E]]. right. now exists item.
Qed.

(** X16: the category list offered by the filter names every category of
    the collection and nothing else, names each once, and is in strictly
    increasing code-unit order. *)
Theorem categories_distinct_and_ordered (items : list InventoryItem) :
  (forall c, In c (categories items) <->
             exists item, In item items /\ category item = c)
  /\ List.NoDup (categories items)
  /\ StronglySorted (fun a b => String.compare a b = Lt) (categories items).
Proof.
  assert (Hnodup : List.NoDup (categories items)).
  { unfold categories.
    eapply Permutation.Permutation_NoDup;
      [symmetry; apply Array_sort_Permutation|].
    apply NoDup_Set_addAll. constructor. }
  split; [intros c; apply In_categories|]. split; [exact Hnodup|].
  apply StronglySorted_NoDup_strict; [|exact Hnodup].
  apply Array_sort_sorted, codeUnitCompare_consistent.
Qed.

Section CategoryFilter.
Context {host : Host}.

(** X17: every category offered by the filter finds something. With the
    search box empty, choosing it shows at least one item; it shows
    exactly the items of that category, unless the category is the empty
    string, which selects no filter and shows the whole collection. *)
Theorem offered_category_finds_items (items : list InventoryItem)
    (c : string) (cfg : SortConfig) :
  In c (categories items) ->
  let shown := filteredAndSortedItems items EmptyString c cfg in
  shown <> []
  /\ (c <> EmptyString ->
      forall item, In item shown <-> In item items /\ category item = c)
  /\ (c = EmptyString -> Permutation shown items).
Proof.
  intros Hc shown. apply In_categories in Hc as [item [Hin Ecat]].
  assert (Hshown : In item shown).
  { apply In_query. split; [exact Hin|]. unfold passesFilters.
    cbn [truthy String.eqb negb orb andb].
    now rewrite Ecat, String.eqb_refl, orb_true_r. }
  split; [intros E; rewrite E in Hshown; destruct Hshown|]. split.
  - intros Hne item'. subst shown. rewrite In_query. unfold passesFilters.
    apply truthy_true in Hne as ->.
    cbn [truthy String.eqb negb orb andb]. now rewrite String.eqb_eq.
  - intros ->. subst shown. rewrite query_unfold, sortStep_Permutation.
    now rewrite filter_all.
Qed.

End CategoryFilter.

(** ** Identifiers *)

Lemma NoDup_map_filter {A B : Type} (f : A -> B) (p : A -> bool)
    (l : list A) :
  List.NoDup (List.map f l) -> List.NoDup (List.map f (List.filter p l)).
Proof.
  induction l as [|x l IH]; intros Hnodup; [constructor|].
  cbn [List.map] in Hnodup. apply List.NoDup_cons_iff in Hnodup as [Hx Hl].
  cbn [List.filter]. destruct (p x); [|now apply IH].
  cbn [List.map]. constructor; [|now apply IH].
  intros Hin. apply Hx. apply in_map_iff in Hin as [y [E Hy]].
  apply filter_In in Hy as [Hy _]. rewrite <- E. now apply in_map.
Qed.

Section Identifiers.
Context {host : Host}.

(** X18: ids stay unique. An update leaves the list of ids exactly as it
    was; a deletion keeps the remaining ids distinct; and when every id is
    the decimal string of an instant before [bound], adding at an instant
    not before [bound] gives a collection whose ids are still distinct and
    all minted before the next millisecond. *)
Theorem ids_stay_unique (items : list InventoryItem)
    (itemData : InventoryItem) (payload : NewInventoryItem)
    (itemId : string) (bound dateNow newDate : Z) :
  List.map id (updateItem itemData newDate items) = List.map id items
  /\ (List.NoDup (List.map id items) ->
      List.NoDup (List.map id (deleteItem itemId items)))
  /\ (mintedBefore bound (List.map id items) ->
      mintedBefore bound (List.map id (deleteItem itemId items)))
  /\ (List.NoDup (List.map id items) -> mintedBefore bound (List.map id items) ->
      (bound <= dateNow)%Z ->
      List.NoDup (List.map id (createItem payload dateNow newDate items))
      /\ mintedBefore (dateNow + 1)
           (List.map id (createItem payload dateNow newDate items))).
Proof.
  split; [|split; [|split]].
  - unfold updateItem. rewrite List.map_map. apply map_ext_in.
    intros item _. destruct (String.eqb_spec (id item) (id itemData));
      [now symmetry | reflexivity].
  - apply NoDup_map_filter.
  - intros Hminted i Hin. apply Hminted.
    apply in_map_iff in Hin as [item [E Hitem]].
    apply filter_In in Hitem as [Hitem _]. rewrite <- E. now apply in_map.
  - intros Hnodup Hminted Hbound. unfold createItem. cbn [List.map id].
    split.
    + constructor; [|exact Hnodup].
      intros Hin. destruct (Hminted _ Hin) as [t [E Ht]].
      apply Number_toString_inj in E. lia.
    + intros i [<-|Hin].
      * exists dateNow. split; [reflexivity | lia].
      * destruct (Hminted _ Hin) as [t [E Ht]]. exists t. split; [exact E|].
        lia.
Qed.

End Identifiers.

(** ** The theme *)

(** X19: what the load makes of the stored theme. A stored ["dark"] gives
    dark mode whatever the system prefers; a missing value and a stored
    empty string follow the system preference; any other stored value
    leaves the mode as it was and removes the [dark] class. The class is
    set exactly when the load chose dark mode. *)
Theorem loadTheme_reads_store (prefersDark : bool)
    (storage : gmap string string) (th : Theme) :
  let th' := loadTheme prefersDark storage th in
  (storage !! "theme" = Some "dark"%string ->
     darkMode th' = true /\ darkClass th' = true)
  /\ (storage !! "theme" = None \/ storage !! "theme" = Some EmptyString ->
      darkMode th' = (prefersDark || darkMode th)%bool
      /\ darkClass th' = prefersDark)
  /\ (forall s, storage !! "theme" = Some s -> s <> "dark"%string ->
        s <> EmptyString ->
        darkMode th' = darkMode th /\ darkClass th' = false).
Proof.
  intros th'. subst th'. unfold loadTheme. cbv zeta.
  split; [|split].
  - now intros ->.
  - intros [-> | ->]; cbn [truthy String.eqb negb orb andb];
      now destruct prefersDark.
  - intros s -> Hdark Hset.
    apply String.eqb_neq in Hdark. apply truthy_true in Hset.
    now rewrite Hdark, Hset.
Qed.


(** ** Operations in sequence *)

Lemma filter_length_le {A : Type} (f : A -> bool) (l : list A) :
  length (List.filter f l) <= length l.
Proof.
  induction l as [|x l IH]; simpl; [lia|]. destruct (f x); simpl; lia.
Qed.

Lemma filter_filter_length_le {A : Type} (f g : A -> bool) (l : list A) :
  length (List.filter f (List.filter g l)) <= length (List.filter f l).
Proof.
  induction l as [|x l IH]; simpl; [lia|].
  destruct (g x); simpl; destruct (f x); simpl; lia.
Qed.

Section Sequences.
Context {host : Host}.

Lemma deleteItem_updateItem (itemId : string) (itemData : InventoryItem)
    (t : Z) (items : list InventoryItem) :
  deleteItem itemId (updateItem itemData t items)
  = updateItem itemData t (deleteItem itemId items).
Proof.
  unfold deleteItem, updateItem.
  induction items as [|x items IH]; [reflexivity|].
  cbn [List.map List.filter].
  destruct (String.eqb (id x) (id itemData)) eqn:E.
  - cbn [id withLastUpdated]. apply String.eqb_eq in E. rewrite E.
    destruct (String.eqb (id itemData) itemId); cbn [negb List.map].
    + exact IH.
    + now rewrite IH, E, String.eqb_refl.
  - destruct (String.eqb (id x) itemId); cbn [negb List.map].
    + exact IH.
    + now rewrite IH, E.
Qed.

(** X20: how the operations on the collection combine. The last of two
    updates with the same item wins; an update and a deletion can be done
    in either order; updating an item that was just deleted changes
    nothing; deleting the id of an item that was just created removes it,
    and gives the collection back when the id was new. *)
Theorem crud_composes (items : list InventoryItem) (itemData : InventoryItem)
    (payload : NewInventoryItem) (itemId : string)
    (t t' dateNow newDate : Z) :
  let created := makeNewItem payload dateNow newDate in
  updateItem itemData t (updateItem itemData t' items)
  = updateItem itemData t items
  /\ deleteItem itemId (updateItem itemData t items)
     = updateItem itemData t (deleteItem itemId items)
  /\ updateItem itemData t (deleteItem (id itemData) items)
     = deleteItem (id itemData) items
  /\ deleteItem (id created) (createItem payload dateNow newDate items)
     = deleteItem (id created) items
  /\ (~ In (id created) (List.map id items) ->
      deleteItem (id created) (createItem payload dateNow newDate items)
      = items).
Proof.
  intros created.
  assert (Hdrop : deleteItem (id created)
                    (createItem payload dateNow newDate items)
                  = deleteItem (id created) items).
  { unfold deleteItem, createItem. cbn [List.filter]. fold created.
    now rewrite String.eqb_refl. }
  split; [|split; [|split; [|split]]].
  - unfold updateItem. rewrite List.map_map. apply map_ext. intros item.
    destruct (String.eqb (id item) (id itemData)) eqn:E; cbn [id withLastUpdated].
    + now rewrite String.eqb_refl.
    + now rewrite E.
  - apply deleteItem_updateItem.
  - apply updateItem_absent, deleteItem_removes.
  - exact Hdrop.
  - intros Hnew. rewrite Hdrop. now apply deleteItem_absent.
Qed.

(** X21: the dashboard counts under the operations. The low-stock count
    never exceeds the row count; an add raises the row count by one and
    the low-stock count by one exactly when the new quantity is at most
    10; an update keeps the row count; a deletion raises neither count;
    and the low-stock card says "All good!" exactly when no item has a
    quantity of 10 or less. *)
Theorem dashboard_counts (items : list InventoryItem)
    (itemData : InventoryItem) (payload : NewInventoryItem)
    (itemId : string) (t dateNow newDate : Z) :
  lowStockItemsCount items <= uniqueProductSKUs items
  /\ uniqueProductSKUs (createItem payload dateNow newDate items)
     = S (uniqueProductSKUs items)
  /\ lowStockItemsCount (createItem payload dateNow newDate items)
     = ((if (new_quantity payload <=? 10)%float then 1 else 0)
        + lowStockItemsCount items)%nat
  /\ uniqueProductSKUs (updateItem itemData t items) = uniqueProductSKUs items
  /\ uniqueProductSKUs (deleteItem itemId items) <= uniqueProductSKUs items
  /\ lowStockItemsCount (deleteItem itemId items) <= lowStockItemsCount items
  /\ (lowStockSubValue (lowStockItemsCount items) = "All good!"%string <->
      forall item, In item items -> (quantity item <=? 10)%float = false).
Proof.
  unfold lowStockItemsCount, uniqueProductSKUs, LOW_STOCK_THRESHOLD.
  split; [apply filter_length_le|]. split; [reflexivity|]. split.
  { unfold createItem. cbn [List.filter quantity makeNewItem].
    now destruct (new_quantity payload <=? 10)%float. }
  split; [unfold updateItem; apply length_map|].
  split; [apply filter_length_le|].
  split; [apply filter_filter_length_le|].
  unfold lowStockSubValue.
  induction items as [|x items IH]; cbn [List.filter].
  - split; [intros _ item [] | reflexivity].
  - destruct (quantity x <=? 10)%float eqn:E; cbn [length Nat.ltb Nat.leb].
    + split; [discriminate|]. intros Hall.
      specialize (Hall x (or_introl eq_refl)). congruence.
    + rewrite IH. split.
      * intros Hall item [<-|Hin]; auto.
      * intros Hall item Hin. apply Hall. now right.
Qed.

End Sequences.

(** * The further properties at concrete inputs *)

(** Loading over an empty store gives the initial data. *)
Lemma loadTimeout_falls_back_witness :
  inventoryItems (loadTimeout (H := exampleHost) 0 ∅ initialApp)
  = initialItems (H := exampleHost) 0.
Proof.
  destruct (loadTimeout_falls_back (host := exampleHost) 0 ∅ initialApp)
    as (_ & Hnone & _).
  apply Hnone. reflexivity.
Defined.

(** At the end of the session, with the theme toggled, one item added
    and the mouse deleted, the store holds the serialised collection. *)
Lemma store_mirrors_collection_witness :
  In (Core LoadTimeout) sessionEvents
  /\ localStorage
       (world (uiRun (H := exampleHost) 0 sessionEvents
                 (mountBrowser false false ∅)))
       !! "inventoryItems"
     = Some (@JSON_stringify exampleHost
               (inventoryItems
                  (app (world (uiRun (H := exampleHost) 0 sessionEvents
                                 (mountBrowser false false ∅)))))).
Proof.
  assert (Hin : In (Core LoadTimeout) sessionEvents) by (left; reflexivity).
  split; [exact Hin|].
  destruct (store_mirrors_collection (host := exampleHost) 0 false false ∅
              sessionEvents) as (Hloaded & _).
  destruct (Hloaded Hin) as [_ Hmirror]. exact Hmirror.
Defined.

(** An add made while loading is gone once the load ends. *)
Lemma load_discards_earlier_changes_witness :
  ~ In (Core LoadTimeout)
      [Core (ItemFormSubmit (inl samplePayload) 1700000000000 1700000000000)]
  /\ inventoryItems
       (app (world (uiRun (H := exampleHost) 0
                      ([Core (ItemFormSubmit (inl samplePayload)
                                1700000000000 1700000000000)]
                       ++ [Core LoadTimeout])
                      (mountBrowser false false ∅))))
     = inventoryItems
         (app (step (H := exampleHost) 0 LoadTimeout (mount ∅))).
Proof.
  assert (Hnot : ~ In (Core LoadTimeout)
            [Core (ItemFormSubmit (inl samplePayload)
                     1700000000000 1700000000000)])
    by (intros [E|[]]; discriminate E).
  split; [exact Hnot|].
  apply (load_discards_earlier_changes (host := exampleHost) 0 false false ∅
           [Core (ItemFormSubmit (inl samplePayload)
                    1700000000000 1700000000000)]
           Hnot).
Defined.

(** Mounting again over the store the session left gives the session's
    collection back. *)
Lemma reload_restores_collection_witness :
  inventoryItems
    (app (step (H := archiveHost sessionArchive) 5 LoadTimeout
            (mount
               (localStorage
                  (world (uiRun (H := archiveHost sessionArchive) 0
                            sessionEvents (mountBrowser false false ∅)))))))
  = inventoryItems
      (app (world (uiRun (H := archiveHost sessionArchive) 0 sessionEvents
                     (mountBrowser false false ∅)))).
Proof.
  apply (reload_restores_collection (host := archiveHost sessionArchive)
           0 5 false false ∅ sessionEvents).
  - left. reflexivity.
  - vm_compute. reflexivity.
  - vm_compute. discriminate.
Defined.

(** At the end of the session the item form is closed and holds nothing. *)
Lemma modals_hold_their_item_witness :
  isModalOpen
    (app (world (uiRun (H := exampleHost) 0 sessionEvents
                   (mountBrowser false false ∅)))) = false
  /\ editingItem
       (app (world (uiRun (H := exampleHost) 0 sessionEvents
                      (mountBrowser false false ∅)))) = None.
Proof.
  destruct (modals_hold_their_item (host := exampleHost) 0 false false ∅
              sessionEvents) as [Hedit _].
  split; [reflexivity | apply Hedit; reflexivity].
Defined.

(** The session toggled the theme once, from light: the store says
    "dark", and a reload on a system that prefers light is dark. *)
Lemma theme_survives_reload_witness :
  In ToggleDarkMode sessionEvents
  /\ localStorage
       (world (uiRun (H := exampleHost) 0 sessionEvents
                 (mountBrowser false false ∅))) !! "theme"
     = Some (themeName
               (darkMode
                  (theme (uiRun (H := exampleHost) 0 sessionEvents
                            (mountBrowser false false ∅)))))
  /\ themeName
       (darkMode
          (theme (uiRun (H := exampleHost) 0 sessionEvents
                    (mountBrowser false false ∅)))) = "dark".
Proof.
  assert (Hin : In ToggleDarkMode sessionEvents)
    by (right; left; reflexivity).
  split; [exact Hin|].
  destruct (theme_survives_reload (host := exampleHost) 0 false false ∅
              sessionEvents) as (_ & Htoggled & _).
  destruct (Htoggled Hin) as [Hkey _].
  split; [exact Hkey | reflexivity].
Defined.

(** After the mouse (id "2") is deleted from the initial data, the laptop
    is on the first page and is not the mouse. *)
Lemma deleted_id_is_never_shown_witness :
  id (mkItem "1" ("Laptop Pro 15" ++ String "034"%char EmptyString) 5 1200
        "Electronics" "LP15-001" "-172800000") <> "2"
  /\ In (mkItem "1" ("Laptop Pro 15" ++ String "034"%char EmptyString) 5
           1200 "Electronics" "LP15-001" "-172800000")
        (inventoryItems loadedApp).
Proof.
  apply (deleted_id_is_never_shown (host := exampleHost) loadedApp "2"
           "Wireless Mouse" "" "" (mkSortConfig None ascending) 1 PerPage10).
  left. reflexivity.
Defined.

(** Searching the office items for "Pen", the pen's name. *)
Lemma search_finds_own_fields_witness :
  In (sampleItem "1" "Pen" 5 1.5 "Office") officeItems
  /\ In (sampleItem "1" "Pen" 5 1.5 "Office")
       (filteredAndSortedItems (H := exampleHost) officeItems "Pen" ""
          (mkSortConfig (Some Kprice) descending)).
Proof.
  assert (Hin : In (sampleItem "1" "Pen" 5 1.5 "Office") officeItems)
    by (left; reflexivity).
  split; [exact Hin|].
  destruct (search_finds_own_fields (host := exampleHost) officeItems
              (sampleItem "1" "Pen" 5 1.5 "Office")
              (mkSortConfig (Some Kprice) descending) Hin) as (Hname & _).
  exact Hname.
Defined.

(** The office items by quantity: the mug (3) before the pen and the ink
    (5 each). *)
Lemma query_is_ordered_witness :
  StronglySorted (notAfter (comparator (H := exampleHost) Kquantity ascending))
    (filteredAndSortedItems (H := exampleHost) officeItems "" ""
       (mkSortConfig (Some Kquantity) ascending)).
Proof.
  apply (query_is_ordered (host := exampleHost) officeItems "" ""
           Kquantity ascending).
  consistent_by_cases.
Defined.

Lemma query_is_idempotent_witness :
  filteredAndSortedItems (H := exampleHost)
    (filteredAndSortedItems (H := exampleHost) officeItems "" "Office"
       (mkSortConfig (Some Kname) ascending))
    "" "Office" (mkSortConfig (Some Kname) ascending)
  = filteredAndSortedItems (H := exampleHost) officeItems "" "Office"
      (mkSortConfig (Some Kname) ascending).
Proof.
  apply (query_is_idempotent (host := exampleHost) officeItems "" "Office"
           (mkSortConfig (Some Kname) ascending)).
  intros k Hk. injection Hk as <-. consistent_by_cases.
Defined.

(** Twelve rows in pages of ten: two pages, of ten and of two rows. *)
Lemma pages_cover_the_list_witness :
  totalPages manyItems PerPage10 = 2%Z
  /\ paginatedItems manyItems 1 PerPage10 ++ paginatedItems manyItems 2 PerPage10
     = manyItems
  /\ paginatedItems manyItems 2 PerPage10 <> []
  /\ paginatedItems manyItems 3 PerPage10 = [].
Proof.
  destruct (pages_cover_the_list manyItems PerPage10)
    as (Hconcat & Hfull & Hpast & _).
  split; [reflexivity|]. split; [|split].
  - rewrite <- Hconcat at 3. cbn [totalPages]. symmetry.
    change (Z.to_nat (totalPages manyItems PerPage10)) with 2%nat.
    cbn [seq List.map concat]. now rewrite app_nil_r.
  - apply Hfull. vm_compute. split; discriminate.
  - apply Hpast. reflexivity.
Defined.

(** Page 0 and page -1 of the twelve rows. *)
Lemma paginate_below_first_page_witness :
  paginatedItems manyItems 0 PerPage10 = []
  /\ paginatedItems manyItems (-1) PerPage10 = firstn 2 (skipn 0 manyItems).
Proof.
  destruct (paginate_below_first_page manyItems 0 PerPage10) as [Hzero _].
  destruct (paginate_below_first_page manyItems (-1) PerPage10)
    as [_ Hneg].
  split; [now apply Hzero | now apply Hneg].
Defined.

(** Choosing "Furniture" on the loaded application. *)
Lemma page_reset_shows_results_witness :
  currentPage (handleCategoryChange "Furniture" loadedApp) = 1%Z
  /\ List.map id
       (visibleItems (H := exampleHost)
          (handleCategoryChange "Furniture" loadedApp))
     = List.map id
         (firstn 10
            (filteredAndSortedItems (H := exampleHost)
               (inventoryItems loadedApp) "" "Furniture"
               (sortConfig loadedApp))).
Proof.
  destruct (page_reset_shows_results (host := exampleHost) loadedApp
              (handleCategoryChange "Furniture" loadedApp) Kid "Furniture"
              PerPage10 (or_intror (or_introl eq_refl)))
    as (Hpage & _ & Hvisible & _).
  split; [exact Hpage | now rewrite Hvisible].
Defined.

(** From the initial setting (last update, descending), asking for the
    name sorts by name ascending, and asking again, descending. *)
Lemma requestSort_alternates_witness :
  sortConfig (requestSort Kname initialApp) = mkSortConfig (Some Kname) ascending
  /\ direction (sortConfig (requestSort Kname (requestSort Kname initialApp)))
     = descending.
Proof.
  destruct (requestSort_alternates initialApp Kname KlastUpdated)
    as (_ & _ & _ & Hfirst & _).
  destruct (requestSort_alternates (requestSort Kname initialApp) Kname
              KlastUpdated) as (_ & _ & Hagain & _).
  split; [reflexivity | now apply Hagain].
Defined.

(** "Furniture" is offered for the initial data and shows two items. *)
Lemma offered_category_finds_items_witness :
  In "Furniture" (categories (initialItems (H := exampleHost) 0))
  /\ filteredAndSortedItems (H := exampleHost)
       (initialItems (H := exampleHost) 0) "" "Furniture"
       (mkSortConfig None ascending) <> [].
Proof.
  assert (Hin : In "Furniture" (categories (initialItems (H := exampleHost) 0)))
    by (vm_compute; tauto).
  split; [exact Hin|].
  destruct (offered_category_finds_items (host := exampleHost)
              (initialItems (H := exampleHost) 0) "Furniture"
              (mkSortConfig None ascending) Hin) as (Hshown & _).
  exact Hshown.
Defined.

(** The initial ids "1" to "7" are distinct and minted before instant 8;
    so are the ids after an add at instant 1700000000000. *)
Lemma ids_stay_unique_witness :
  List.NoDup (List.map id (inventoryItems loadedApp))
  /\ List.NoDup
       (List.map id
          (createItem (H := exampleHost) samplePayload 1700000000000
             1700000000000 (inventoryItems loadedApp))).
Proof.
  assert (Hnodup : List.NoDup (List.map id (inventoryItems loadedApp))).
  { cbn. repeat (constructor; [no_such_id|]). constructor. }
  assert (Hminted : mintedBefore 8 (List.map id (inventoryItems loadedApp))).
  { intros i Hin. cbn in Hin.
    destruct Hin as [<-|[<-|[<-|[<-|[<-|[<-|[<-|[]]]]]]]];
      [exists 1%Z | exists 2%Z | exists 3%Z | exists 4%Z | exists 5%Z
      | exists 6%Z | exists 7%Z]; (split; [reflexivity | lia]). }
  split; [exact Hnodup|].
  destruct (ids_stay_unique (host := exampleHost) (inventoryItems loadedApp)
              (sampleItem "2" "Trackball" 9 49 "Accessories") samplePayload
              "2" 8 1700000000000 1700000000000)
    as (_ & _ & _ & Hcreate).
  destruct (Hcreate Hnodup Hminted ltac:(lia)) as [Hfresh _].
  exact Hfresh.
Defined.

(** A stored "light" beats a system that prefers dark. *)
Lemma loadTheme_reads_store_witness :
  darkMode (loadTheme true {["theme" := "light"]} (initialTheme true)) = false
  /\ darkClass (loadTheme true {["theme" := "light"]} (initialTheme true))
     = false.
Proof.
  destruct (loadTheme_reads_store true {["theme" := "light"]}
              (initialTheme true)) as (_ & _ & Hother).
  apply (Hother "light").
  - apply lookup_singleton_eq.
  - discriminate.
  - discriminate.
Defined.

(** Adding to the office items and deleting the new id again. *)
Lemma crud_composes_witness :
  ~ In "1700000000000" (List.map id officeItems)
  /\ deleteItem "1700000000000"
       (createItem (H := exampleHost) samplePayload 1700000000000
          1700000000001 officeItems)
     = officeItems.
Proof.
  assert (Hnew : ~ In "1700000000000" (List.map id officeItems))
    by no_such_id.
  split; [exact Hnew|].
  destruct (crud_composes (host := exampleHost) officeItems
              (sampleItem "1" "Pen" 5 1.5 "Office") samplePayload "1"
              3 4 1700000000000 1700000000001) as (_ & _ & _ & _ & Hback).
  apply Hback. exact Hnew.
Defined.

(** The office items, with quantities 5, 3 and 5, need attention. *)
Lemma dashboard_counts_witness :
  lowStockItemsCount officeItems <= uniqueProductSKUs officeItems
  /\ lowStockSubValue (lowStockItemsCount officeItems) <> "All good!"%string.
Proof.
  destruct (dashboard_counts (host := exampleHost) officeItems
              (sampleItem "1" "Pen" 5 1.5 "Office") samplePayload "1"
              3 1700000000000 1700000000001) as (Hle & _ & _ & _ & _ & _ & Hgood).
  split; [exact Hle|].
  intros E. destruct Hgood as [Hgood _].
  specialize (Hgood E (sampleItem "1" "Pen" 5 1.5 "Office")
                (or_introl eq_refl)).
  discriminate Hgood.
Defined.
